(** * Verification of the LLVM backend intrinsics and execution-context accessor

    Shallow embedding of [lib/llvm-backend/src/intrinsics.rs]:
    - [Intrinsics::declare], which registers the intrinsic function symbols
      of a compilation unit and builds the type handles, among them the body
      of the opaque [ctx] struct;
    - [Intrinsics::ctx], which builds a [CtxType] from the first parameter
      of a function;
    - the [CtxType] accessors [memory], [table], [dynamic_sigindex],
      [global_cache] and [imported_func], which emit IR through the shared
      [Builder] and memoise what they emitted in per-function hash maps.

    The LLVM builder is modelled as an append-only list of emitted
    instructions; an instruction result is the value [VInst n t], where [n]
    is the position of the instruction in that list and [t] its LLVM type.
    A Rust panic ([unwrap], [into_pointer_value] and [into_int_value] on a
    value of the wrong kind, an out of range [Map] index) is [None]. *)

From Stdlib Require Import String Ascii ZArith.
From stdpp Require Import base gmap list.

Local Set Warnings "-register-all".

(** ** LLVM types and values *)

Inductive llty : Type :=
| TVoid
| TInt (w : nat)
| TFloat (w : nat)
| TPtr (t : llty)
| TStruct (fs : list llty)
| TCtx                               (* the named struct "ctx" *)
| TFun (ret : llty) (args : list llty).

Inductive value : Type :=
| VParam (n : nat) (t : llty)        (* the n-th parameter of the function *)
| VInst (n : nat) (t : llty)         (* the result of the n-th instruction *)
| VConstInt (t : llty) (z : Z).

Definition type_of (v : value) : llty :=
  match v with
  | VParam _ t | VInst _ t | VConstInt t _ => t
  end.

(** A declared function: its symbol name and its function type. *)
Record FunctionValue := mkFun { fn_name : string; fn_ty : llty }.

Inductive instr : Type :=
| IStructGep (p : value) (k : nat)
| IInBoundsGep (p : value) (idx : list value)
| ILoad (p : value)
| IPtrToInt (v : value) (t : llty)
| IIntToPtr (v : value) (t : llty)
| ICall (f : FunctionValue) (args : list value).

(** ** [Intrinsics::declare] *)

Record Intrinsics := {
  i_ctlz_i32 : FunctionValue; i_ctlz_i64 : FunctionValue;
  i_cttz_i32 : FunctionValue; i_cttz_i64 : FunctionValue;
  i_ctpop_i32 : FunctionValue; i_ctpop_i64 : FunctionValue;
  i_sqrt_f32 : FunctionValue; i_sqrt_f64 : FunctionValue;
  i_minimum_f32 : FunctionValue; i_minimum_f64 : FunctionValue;
  i_maximum_f32 : FunctionValue; i_maximum_f64 : FunctionValue;
  i_ceil_f32 : FunctionValue; i_ceil_f64 : FunctionValue;
  i_floor_f32 : FunctionValue; i_floor_f64 : FunctionValue;
  i_trunc_f32 : FunctionValue; i_trunc_f64 : FunctionValue;
  i_nearbyint_f32 : FunctionValue; i_nearbyint_f64 : FunctionValue;
  i_fabs_f32 : FunctionValue; i_fabs_f64 : FunctionValue;
  i_copysign_f32 : FunctionValue; i_copysign_f64 : FunctionValue;
  i_expect_i1 : FunctionValue;
  i_trap : FunctionValue;

  void_ty : llty; i1_ty : llty; i8_ty : llty; i16_ty : llty;
  i32_ty : llty; i64_ty : llty; f32_ty : llty; f64_ty : llty;

  i8_ptr_ty : llty; i16_ptr_ty : llty; i32_ptr_ty : llty;
  i64_ptr_ty : llty; f32_ptr_ty : llty; f64_ptr_ty : llty;

  anyfunc_ty : llty;

  i_memory_grow_dynamic_local : FunctionValue;
  i_memory_grow_static_local : FunctionValue;
  i_memory_grow_shared_local : FunctionValue;
  i_memory_grow_dynamic_import : FunctionValue;
  i_memory_grow_static_import : FunctionValue;
  i_memory_grow_shared_import : FunctionValue;

  i_memory_size_dynamic_local : FunctionValue;
  i_memory_size_static_local : FunctionValue;
  i_memory_size_shared_local : FunctionValue;
  i_memory_size_dynamic_import : FunctionValue;
  i_memory_size_static_import : FunctionValue;
  i_memory_size_shared_import : FunctionValue;

  (** the body given to the opaque struct [ctx] by [ctx_ty.set_body] *)
  ctx_body : list llty;
  ctx_ptr_ty : llty;
}.

(** A compilation unit, as far as [declare] touches it: the functions
    registered in it, in registration order. *)
Definition LModule := list FunctionValue.

(** [module.add_function(name, ty, None)]. *)
Definition add_function (name : string) (ty : llty) (m : LModule)
  : FunctionValue * LModule :=
  let f := mkFun name ty in (f, app m [f]).

Definition local_memory_ty : llty := TStruct [TPtr (TInt 8); TInt 64; TPtr (TInt 8)].
Definition local_table_ty : llty := local_memory_ty.
Definition local_global_ty : llty := TInt 64.
Definition imported_func_ty : llty := TStruct [TPtr (TInt 8); TPtr TCtx].
Definition sigindex_ty : llty := TInt 32.

Definition declared_ctx_body : list llty :=
  [ TPtr (TPtr local_memory_ty);
    TPtr (TPtr local_table_ty);
    TPtr (TPtr local_global_ty);
    TPtr (TPtr local_memory_ty);
    TPtr (TPtr local_table_ty);
    TPtr (TPtr local_global_ty);
    TPtr (TPtr imported_func_ty);
    TPtr sigindex_ty ].

Definition ret_i32_take_i32_i1 := TFun (TInt 32) [TInt 32; TInt 1].
Definition ret_i64_take_i64_i1 := TFun (TInt 64) [TInt 64; TInt 1].
Definition ret_i32_take_i32 := TFun (TInt 32) [TInt 32].
Definition ret_i64_take_i64 := TFun (TInt 64) [TInt 64].
Definition ret_f32_take_f32 := TFun (TFloat 32) [TFloat 32].
Definition ret_f64_take_f64 := TFun (TFloat 64) [TFloat 64].
Definition ret_f32_take_f32_f32 := TFun (TFloat 32) [TFloat 32; TFloat 32].
Definition ret_f64_take_f64_f64 := TFun (TFloat 64) [TFloat 64; TFloat 64].
Definition ret_i32_take_ctx_i32_i32 := TFun (TInt 32) [TPtr TCtx; TInt 32; TInt 32].
Definition ret_i32_take_ctx_i32 := TFun (TInt 32) [TPtr TCtx; TInt 32].
Definition ret_i1_take_i1_i1 := TFun (TInt 1) [TInt 1; TInt 1].

Local Open Scope string_scope.

(** [Intrinsics::declare]: the struct literal's [add_function] calls run in
    field order, threading the compilation unit. *)
Definition declare (m0 : LModule) : Intrinsics * LModule :=
  let '(ctlz_i32, m) := add_function "llvm.ctlz.i32" ret_i32_take_i32_i1 m0 in
  let '(ctlz_i64, m) := add_function "llvm.ctlz.i64" ret_i64_take_i64_i1 m in
  let '(cttz_i32, m) := add_function "llvm.cttz.i32" ret_i32_take_i32_i1 m in
  let '(cttz_i64, m) := add_function "llvm.cttz.i64" ret_i64_take_i64_i1 m in
  let '(ctpop_i32, m) := add_function "llvm.ctpop.i32" ret_i32_take_i32 m in
  let '(ctpop_i64, m) := add_function "llvm.ctpop.i64" ret_i64_take_i64 m in
  let '(sqrt_f32, m) := add_function "llvm.sqrt.f32" ret_f32_take_f32 m in
  let '(sqrt_f64, m) := add_function "llvm.sqrt.f64" ret_f64_take_f64 m in
  let '(minimum_f32, m) := add_function "llvm.minnum.f32" ret_f32_take_f32_f32 m in
  let '(minimum_f64, m) := add_function "llvm.minnum.f64" ret_f64_take_f64_f64 m in
  let '(maximum_f32, m) := add_function "llvm.maxnum.f32" ret_f32_take_f32_f32 m in
  let '(maximum_f64, m) := add_function "llvm.maxnum.f64" ret_f64_take_f64_f64 m in
  let '(ceil_f32, m) := add_function "llvm.ceil.f32" ret_f32_take_f32 m in
  let '(ceil_f64, m) := add_function "llvm.ceil.f64" ret_f64_take_f64 m in
  let '(floor_f32, m) := add_function "llvm.floor.f32" ret_f32_take_f32 m in
  let '(floor_f64, m) := add_function "llvm.floor.f64" ret_f64_take_f64 m in
  let '(trunc_f32, m) := add_function "llvm.trunc.f32" ret_f32_take_f32 m in
  let '(trunc_f64, m) := add_function "llvm.trunc.f64" ret_f64_take_f64 m in
  let '(nearbyint_f32, m) := add_function "llvm.nearbyint.f32" ret_f32_take_f32 m in
  let '(nearbyint_f64, m) := add_function "llvm.nearbyint.f64" ret_f64_take_f64 m in
  let '(fabs_f32, m) := add_function "llvm.fabs.f32" ret_f32_take_f32 m in
  let '(fabs_f64, m) := add_function "llvm.fabs.f64" ret_f64_take_f64 m in
  let '(copysign_f32, m) := add_function "llvm.copysign.f32" ret_f32_take_f32_f32 m in
  let '(copysign_f64, m) := add_function "llvm.copysign.f64" ret_f64_take_f64_f64 m in
  let '(expect_i1, m) := add_function "llvm.expect.i1" ret_i1_take_i1_i1 m in
  let '(trap, m) := add_function "llvm.trap" (TFun TVoid []) m in
  let '(mgdl, m) := add_function "vm.memory.grow.dynamic.local" ret_i32_take_ctx_i32_i32 m in
  let '(mgsl, m) := add_function "vm.memory.grow.static.local" ret_i32_take_ctx_i32_i32 m in
  let '(mghl, m) := add_function "vm.memory.grow.shared.local" ret_i32_take_ctx_i32_i32 m in
  let '(mgdi, m) := add_function "vm.memory.grow.dynamic.import" ret_i32_take_ctx_i32_i32 m in
  let '(mgsi, m) := add_function "vm.memory.grow.static.import" ret_i32_take_ctx_i32_i32 m in
  let '(mghi, m) := add_function "vm.memory.grow.shared.import" ret_i32_take_ctx_i32_i32 m in
  let '(msdl, m) := add_function "vm.memory.size.dynamic.local" ret_i32_take_ctx_i32 m in
  let '(mssl, m) := add_function "vm.memory.size.static.local" ret_i32_take_ctx_i32 m in
  let '(mshl, m) := add_function "vm.memory.size.shared.local" ret_i32_take_ctx_i32 m in
  let '(msdi, m) := add_function "vm.memory.size.dynamic.import" ret_i32_take_ctx_i32 m in
  let '(mssi, m) := add_function "vm.memory.size.static.import" ret_i32_take_ctx_i32 m in
  let '(mshi, m) := add_function "vm.memory.size.shared.import" ret_i32_take_ctx_i32 m in
  ({| i_ctlz_i32 := ctlz_i32; i_ctlz_i64 := ctlz_i64;
      i_cttz_i32 := cttz_i32; i_cttz_i64 := cttz_i64;
      i_ctpop_i32 := ctpop_i32; i_ctpop_i64 := ctpop_i64;
      i_sqrt_f32 := sqrt_f32; i_sqrt_f64 := sqrt_f64;
      i_minimum_f32 := minimum_f32; i_minimum_f64 := minimum_f64;
      i_maximum_f32 := maximum_f32; i_maximum_f64 := maximum_f64;
      i_ceil_f32 := ceil_f32; i_ceil_f64 := ceil_f64;
      i_floor_f32 := floor_f32; i_floor_f64 := floor_f64;
      i_trunc_f32 := trunc_f32; i_trunc_f64 := trunc_f64;
      i_nearbyint_f32 := nearbyint_f32; i_nearbyint_f64 := nearbyint_f64;
      i_fabs_f32 := fabs_f32; i_fabs_f64 := fabs_f64;
      i_copysign_f32 := copysign_f32; i_copysign_f64 := copysign_f64;
      i_expect_i1 := expect_i1; i_trap := trap;
      void_ty := TVoid; i1_ty := TInt 1; i8_ty := TInt 8; i16_ty := TInt 16;
      i32_ty := TInt 32; i64_ty := TInt 64; f32_ty := TFloat 32; f64_ty := TFloat 64;
      i8_ptr_ty := TPtr (TInt 8); i16_ptr_ty := TPtr (TInt 16);
      i32_ptr_ty := TPtr (TInt 32); i64_ptr_ty := TPtr (TInt 64);
      f32_ptr_ty := TPtr (TFloat 32); f64_ptr_ty := TPtr (TFloat 64);
      anyfunc_ty := TStruct [TPtr (TInt 8); TPtr TCtx; sigindex_ty];
      i_memory_grow_dynamic_local := mgdl; i_memory_grow_static_local := mgsl;
      i_memory_grow_shared_local := mghl; i_memory_grow_dynamic_import := mgdi;
      i_memory_grow_static_import := mgsi; i_memory_grow_shared_import := mghi;
      i_memory_size_dynamic_local := msdl; i_memory_size_static_local := mssl;
      i_memory_size_shared_local := mshl; i_memory_size_dynamic_import := msdi;
      i_memory_size_static_import := mssi; i_memory_size_shared_import := mshi;
      ctx_body := declared_ctx_body;
      ctx_ptr_ty := TPtr TCtx |}, m).

(** The handle table returned by [declare]; it does not depend on the
    compilation unit it was declared into. *)
Definition intrinsics : Intrinsics := fst (declare []).

(** The names of the function symbols [declare] adds to the unit [m0]. *)
Definition registered_names (m0 : LModule) : list string :=
  map fn_name (snd (declare m0)).

(** The dot-separated components of a symbol name. *)
Fixpoint name_parts (name : string) : list string :=
  match name with
  | EmptyString => [EmptyString]
  | String c rest =>
      match name_parts rest with
      | [] => []
      | p :: ps => if Ascii.eqb c "."%char then EmptyString :: p :: ps else String c p :: ps
      end
  end.

Definition in_names (x : string) (xs : list string) : bool :=
  existsb (String.eqb x) xs.

(** The numeric-primitive form [llvm.<op>.<width>]. *)
Definition numeric_form (name : string) : bool :=
  match name_parts name with
  | [ns; op; w] =>
      String.eqb ns "llvm" && negb (String.eqb op "") &&
      in_names w ["i1"; "i32"; "i64"; "f32"; "f64"]
  | _ => false
  end.

(** The runtime entry-point form
    [vm.<resource>.<operation>.<discipline>.<locality>], with the memory
    resource's operations, disciplines and localities. *)
Definition runtime_form (name : string) : bool :=
  match name_parts name with
  | [ns; res; op; disc; loc] =>
      String.eqb ns "vm" && String.eqb res "memory" && in_names op ["grow"; "size"] &&
      in_names disc ["dynamic"; "static"; "shared"] && in_names loc ["local"; "import"]
  | _ => false
  end.

(** The operation component of a runtime entry-point name. *)
Definition runtime_op (name : string) : string := nth 2 (name_parts name) "".

(** The [{grow, size} x {dynamic, static, shared} x {local, import}] names. *)
Definition memory_entry_names : list string :=
  flat_map (fun op =>
    flat_map (fun loc =>
      map (fun disc => "vm.memory." ++ op ++ "." ++ disc ++ "." ++ loc)
        ["dynamic"; "static"; "shared"])
      ["local"; "import"])
    ["grow"; "size"].

(** The 24 numeric primitives: [ctlz], [cttz], [ctpop] at [i32] and [i64],
    and [sqrt], [minnum], [maxnum], [ceil], [floor], [trunc], [nearbyint],
    [fabs], [copysign] at [f32] and [f64]. *)
Definition numeric_entry_names : list string :=
  flat_map (fun op => map (fun w => "llvm." ++ op ++ "." ++ w) ["i32"; "i64"])
    ["ctlz"; "cttz"; "ctpop"] ++
  flat_map (fun op => map (fun w => "llvm." ++ op ++ "." ++ w) ["f32"; "f64"])
    ["sqrt"; "minnum"; "maxnum"; "ceil"; "floor"; "trunc"; "nearbyint"; "fabs"; "copysign"].

(** The kinds of symbols a manifest distinguishes: runtime memory entry
    points, the two control symbols (branch-likelihood hint and trap), the
    numeric primitives, anything else. *)
Inductive SymbolKind := KMemory | KControl | KNumeric | KOther.

Definition kind_eqb (a b : SymbolKind) : bool :=
  match a, b with
  | KMemory, KMemory | KControl, KControl | KNumeric, KNumeric | KOther, KOther => true
  | _, _ => false
  end.

Definition symbol_kind (name : string) : SymbolKind :=
  if String.eqb name "llvm.expect.i1" || String.eqb name "llvm.trap" then KControl
  else if runtime_form name then KMemory
  else if numeric_form name then KNumeric
  else KOther.

Definition count_kind (k : SymbolKind) (names : list string) : nat :=
  length (filter (fun n => kind_eqb (symbol_kind n) k) names).

Local Close Scope string_scope.

(** ** Module metadata *)

Inductive MemoryType := Dynamic | Static | SharedStatic.

(** [wasmer_runtime_core::types::Type]. *)
Inductive WasmType := I32 | I64 | F32 | F64.

Record GlobalDescriptor := mkGlobalDesc { mutable : bool; ty : WasmType }.

(** The parts of [ModuleInfo] the accessors read: the memory type of every
    local and imported memory, the number of imported tables, and the
    descriptor of every local and imported global. *)
Record ModuleInfo := mkInfo {
  memories : list MemoryType;
  imported_memories : list MemoryType;
  imported_tables : nat;
  globals : list GlobalDescriptor;
  imported_globals : list GlobalDescriptor;
}.

Inductive LocalOrImport := Local (i : nat) | Import (i : nat).

(** Modelled from the spec: [TypedIndex::local_or_import] of
    [wasmer_runtime_core] (not in this excerpt), the pure resolution of a
    module-wide index into the local or the imported index space.  As in
    that crate, the imported entities are numbered first. *)
Definition local_or_import (imports_len index : nat) : LocalOrImport :=
  if Nat.ltb index imports_len then Import index else Local (index - imports_len)%nat.

(** [type_to_llvm_ptr]. *)
Definition type_to_llvm_ptr (intr : Intrinsics) (t : WasmType) : llty :=
  match t with
  | I32 => i32_ptr_ty intr
  | I64 => i64_ptr_ty intr
  | F32 => f32_ptr_ty intr
  | F64 => f64_ptr_ty intr
  end.

(** ** The per-function caches and the builder *)

Inductive MemoryCache :=
| MDynamic (ptr_to_base_ptr ptr_to_bounds : value)   (* the memory moves around *)
| MStatic (base_ptr bounds : value).                 (* always in the same place *)

Record TableCache := mkTableCache { t_ptr_to_base_ptr : value; t_ptr_to_bounds : value }.

Inductive GlobalCache :=
| GMut (ptr_to_value : value)
| GConst (value_ : value).

Record ImportedFuncCache := mkFuncCache { func_ptr : value; ctx_ptr : value }.

(** A [CtxType] together with the instructions emitted so far into the
    builder it shares with the rest of the function's code generation. *)
Record CtxState := mkCtx {
  ctx_ptr_value : value;
  builder : list instr;
  cached_memories : gmap nat MemoryCache;
  cached_tables : gmap nat TableCache;
  cached_sigindices : gmap nat value;
  cached_globals : gmap nat GlobalCache;
  cached_imported_functions : gmap nat ImportedFuncCache;
}.

Definition set_builder (b : list instr) (s : CtxState) : CtxState :=
  mkCtx (ctx_ptr_value s) b (cached_memories s) (cached_tables s)
    (cached_sigindices s) (cached_globals s) (cached_imported_functions s).
Definition set_memories m (s : CtxState) : CtxState :=
  mkCtx (ctx_ptr_value s) (builder s) m (cached_tables s)
    (cached_sigindices s) (cached_globals s) (cached_imported_functions s).
Definition set_tables m (s : CtxState) : CtxState :=
  mkCtx (ctx_ptr_value s) (builder s) (cached_memories s) m
    (cached_sigindices s) (cached_globals s) (cached_imported_functions s).
Definition set_sigindices m (s : CtxState) : CtxState :=
  mkCtx (ctx_ptr_value s) (builder s) (cached_memories s) (cached_tables s)
    m (cached_globals s) (cached_imported_functions s).
Definition set_globals m (s : CtxState) : CtxState :=
  mkCtx (ctx_ptr_value s) (builder s) (cached_memories s) (cached_tables s)
    (cached_sigindices s) m (cached_imported_functions s).
Definition set_imported_functions m (s : CtxState) : CtxState :=
  mkCtx (ctx_ptr_value s) (builder s) (cached_memories s) (cached_tables s)
    (cached_sigindices s) (cached_globals s) m.

(** ** A state and panic monad *)

Definition M (A : Type) : Type := CtxState -> option (A * CtxState).

#[global] Instance M_ret : MRet M := fun A x s => Some (x, s).
#[global] Instance M_bind : MBind M := fun A B f m s =>
  match m s with
  | Some (x, s') => f x s'
  | None => None
  end.

Definition panic {A} : M A := fun _ => None.

(** [Option::unwrap], [map[index]]. *)
Definition unwrap {A} (o : option A) : M A :=
  fun s => match o with Some x => Some (x, s) | None => None end.

(** [HashMap::entry(index).or_insert_with(f)] on one of the caches: the
    closure runs (and emits) only when [index] is absent. *)
Definition or_insert_with {C} (get : CtxState -> gmap nat C)
    (set : gmap nat C -> CtxState -> CtxState) (index : nat) (f : M C) : M C :=
  fun s =>
    match get s !! index with
    | Some c => Some (c, s)
    | None =>
        match f s with
        | Some (c, s') => Some (c, set (<[index := c]> (get s')) s')
        | None => None
        end
    end.

Section Builder.
Context (intr : Intrinsics).

Definition emit (i : instr) (t : llty) : M value :=
  fun s => Some (VInst (length (builder s)) t, set_builder (builder s ++ [i]) s).

Definition struct_fields (t : llty) : option (list llty) :=
  match t with
  | TStruct fs => Some fs
  | TCtx => Some (ctx_body intr)
  | _ => None
  end.

Definition build_struct_gep (p : value) (k : nat) : M value :=
  match type_of p with
  | TPtr st =>
      match struct_fields st with
      | Some fs => match fs !! k with
                   | Some t => emit (IStructGep p k) (TPtr t)
                   | None => panic
                   end
      | None => panic
      end
  | _ => panic
  end.

Definition build_load (p : value) : M value :=
  match type_of p with
  | TPtr t => emit (ILoad p) t
  | _ => panic
  end.

(** [build_in_bounds_gep] with a single index keeps the pointer type. *)
Definition build_in_bounds_gep (p : value) (idx : list value) : M value :=
  match type_of p with
  | TPtr t => emit (IInBoundsGep p idx) (TPtr t)
  | _ => panic
  end.

Definition build_ptr_to_int (v : value) (t : llty) : M value :=
  match type_of v with
  | TPtr _ => emit (IPtrToInt v t) t
  | _ => panic
  end.

Definition build_int_to_ptr (v : value) (t : llty) : M value :=
  match type_of v with
  | TInt _ => emit (IIntToPtr v t) t
  | _ => panic
  end.

Definition build_call (f : FunctionValue) (args : list value) : M unit :=
  fun s => Some (tt, set_builder (builder s ++ [ICall f args]) s).

(** [BasicValueEnum::into_pointer_value] and [into_int_value] panic on a
    value of another kind. *)
Definition into_pointer_value (v : value) : M value :=
  match type_of v with
  | TPtr _ => mret v
  | _ => panic
  end.

Definition into_int_value (v : value) : M value :=
  match type_of v with
  | TInt _ => mret v
  | _ => panic
  end.

(** [IntType::const_int(n, false)]: the constant truncated to the width. *)
Definition const_int (t : llty) (n : nat) : value :=
  match t with
  | TInt w => VConstInt t (Z.of_nat n mod 2 ^ Z.of_nat w)
  | _ => VConstInt t (Z.of_nat n)
  end.

End Builder.

(** ** The execution-context accessor *)

Definition gets {A} (f : CtxState -> A) : M A := fun s => Some (f s, s).

(** [Intrinsics::ctx]: [func_value.get_nth_param(0).unwrap().into_pointer_value()],
    with empty caches, over the builder [code] emitted so far.  A function is
    given by the types of its parameters. *)
Definition ctx (params : list llty) (code : list instr) : option CtxState :=
  match params !! 0 with
  | Some (TPtr t) => Some (mkCtx (VParam 0 (TPtr t)) code ∅ ∅ ∅ ∅ ∅)
  | _ => None
  end.

Section Accessor.
Context (intr : Intrinsics) (info : ModuleInfo).

Definition memory_derive (ctx_ptr_value : value) (index : nat) : M MemoryCache :=
  '(memory_array_ptr_ptr, idx, memory_type) ←
    match local_or_import (length (imported_memories info)) index with
    | Local local_mem_index =>
        p ← build_struct_gep intr ctx_ptr_value 0;
        mt ← unwrap (memories info !! local_mem_index);
        mret (p, local_mem_index, mt)
    | Import import_mem_index =>
        p ← build_struct_gep intr ctx_ptr_value 3;
        mt ← unwrap (imported_memories info !! import_mem_index);
        mret (p, import_mem_index, mt)
    end;
  memory_array_ptr ← build_load memory_array_ptr_ptr ≫= into_pointer_value;
  let const_index := const_int (i32_ty intr) idx in
  memory_ptr_ptr ← build_in_bounds_gep memory_array_ptr [const_index];
  memory_ptr ← build_load memory_ptr_ptr ≫= into_pointer_value;
  ptr_to_base_ptr ← build_struct_gep intr memory_ptr 0;
  ptr_to_bounds ← build_struct_gep intr memory_ptr 1;
  match memory_type with
  | Dynamic => mret (MDynamic ptr_to_base_ptr ptr_to_bounds)
  | Static | SharedStatic =>
      base_ptr ← build_load ptr_to_base_ptr ≫= into_pointer_value;
      bounds ← build_load ptr_to_bounds ≫= into_int_value;
      mret (MStatic base_ptr bounds)
  end.

(** [CtxType::memory]. *)
Definition memory (index : nat) : M (value * value) :=
  ctxp ← gets ctx_ptr_value;
  memory_cache ← or_insert_with cached_memories set_memories index
                   (memory_derive ctxp index);
  match memory_cache with
  | MDynamic ptr_to_base_ptr ptr_to_bounds =>
      base ← build_load ptr_to_base_ptr ≫= into_pointer_value;
      bounds ← build_load ptr_to_bounds ≫= into_int_value;
      mret (base, bounds)
  | MStatic base_ptr bounds => mret (base_ptr, bounds)
  end.

Definition table_derive (ctx_ptr_value : value) (index : nat) : M TableCache :=
  '(table_array_ptr_ptr, idx) ←
    match local_or_import (imported_tables info) index with
    | Local local_table_index =>
        p ← build_struct_gep intr ctx_ptr_value 1; mret (p, local_table_index)
    | Import import_table_index =>
        p ← build_struct_gep intr ctx_ptr_value 4; mret (p, import_table_index)
    end;
  table_array_ptr ← build_load table_array_ptr_ptr ≫= into_pointer_value;
  let const_index := const_int (i32_ty intr) idx in
  table_ptr_ptr ← build_in_bounds_gep table_array_ptr [const_index];
  table_ptr ← build_load table_ptr_ptr ≫= into_pointer_value;
  ptr_to_base_ptr ← build_struct_gep intr table_ptr 0;
  ptr_to_bounds ← build_struct_gep intr table_ptr 1;
  mret (mkTableCache ptr_to_base_ptr ptr_to_bounds).

(** [CtxType::table]. *)
Definition table (index : nat) : M (value * value) :=
  ctxp ← gets ctx_ptr_value;
  tc ← or_insert_with cached_tables set_tables index (table_derive ctxp index);
  base ← build_load (t_ptr_to_base_ptr tc) ≫= into_pointer_value;
  bounds ← build_load (t_ptr_to_bounds tc) ≫= into_int_value;
  mret (base, bounds).

Definition sigindex_derive (ctx_ptr_value : value) (index : nat) : M value :=
  sigindex_array_ptr_ptr ← build_struct_gep intr ctx_ptr_value 7;
  sigindex_array_ptr ← build_load sigindex_array_ptr_ptr ≫= into_pointer_value;
  let const_index := const_int (i32_ty intr) index in
  sigindex_ptr ← build_in_bounds_gep sigindex_array_ptr [const_index];
  build_load sigindex_ptr ≫= into_int_value.

(** [CtxType::dynamic_sigindex]. *)
Definition dynamic_sigindex (index : nat) : M value :=
  ctxp ← gets ctx_ptr_value;
  or_insert_with cached_sigindices set_sigindices index (sigindex_derive ctxp index).

Definition global_derive (ctx_ptr_value : value) (index : nat) : M GlobalCache :=
  '(globals_array_ptr_ptr, idx, mut, wasmer_ty) ←
    match local_or_import (length (imported_globals info)) index with
    | Local local_global_index =>
        desc ← unwrap (globals info !! local_global_index);
        p ← build_struct_gep intr ctx_ptr_value 2;
        mret (p, local_global_index, mutable desc, ty desc)
    | Import import_global_index =>
        desc ← unwrap (imported_globals info !! import_global_index);
        p ← build_struct_gep intr ctx_ptr_value 5;
        mret (p, import_global_index, mutable desc, ty desc)
    end;
  let llvm_ptr_ty := type_to_llvm_ptr intr wasmer_ty in
  global_array_ptr ← build_load globals_array_ptr_ptr ≫= into_pointer_value;
  let const_index := const_int (i32_ty intr) idx in
  global_ptr_ptr ← build_in_bounds_gep global_array_ptr [const_index];
  global_ptr ← build_load global_ptr_ptr ≫= into_pointer_value;
  int ← build_ptr_to_int global_ptr (i64_ty intr);
  global_ptr_typed ← build_int_to_ptr int llvm_ptr_ty;
  if (mut : bool) then mret (GMut global_ptr_typed)
  else v ← build_load global_ptr_typed ≫= into_int_value; mret (GConst v).

(** [CtxType::global_cache]. *)
Definition global_cache (index : nat) : M GlobalCache :=
  ctxp ← gets ctx_ptr_value;
  or_insert_with cached_globals set_globals index (global_derive ctxp index).

Definition imported_func_derive (ctx_ptr_value : value) (index : nat) : M ImportedFuncCache :=
  func_array_ptr_ptr ← build_struct_gep intr ctx_ptr_value 6;
  func_array_ptr ← build_load func_array_ptr_ptr ≫= into_pointer_value;
  let const_index := const_int (i32_ty intr) index in
  imported_func_ptr_ptr ← build_in_bounds_gep func_array_ptr [const_index];
  imported_func_ptr ← build_load imported_func_ptr_ptr ≫= into_pointer_value;
  func_ptr_ptr ← build_struct_gep intr imported_func_ptr 0;
  ctx_ptr_ptr ← build_struct_gep intr imported_func_ptr 1;
  fp ← build_load func_ptr_ptr ≫= into_pointer_value;
  cp ← build_load ctx_ptr_ptr ≫= into_pointer_value;
  mret (mkFuncCache fp cp).

(** [CtxType::imported_func]. *)
Definition imported_func (index : nat) : M (value * value) :=
  ctxp ← gets ctx_ptr_value;
  c ← or_insert_with cached_imported_functions set_imported_functions index
        (imported_func_derive ctxp index);
  mret (func_ptr c, ctx_ptr c).

(** [CtxType::build_trap]. *)
Definition build_trap : M unit := build_call (i_trap intr) [].

(** One call of an accessor, as the instruction-selection driver makes it. *)
Inductive Op :=
| OpMemory (i : nat) | OpTable (i : nat) | OpSigindex (i : nat)
| OpGlobal (i : nat) | OpImportedFunc (i : nat).

Inductive OpResult :=
| RPair (a b : value) | RValue (v : value) | RGlobal (g : GlobalCache).

Definition run_op (o : Op) : M OpResult :=
  match o with
  | OpMemory i => '(a, b) ← memory i; mret (RPair a b)
  | OpTable i => '(a, b) ← table i; mret (RPair a b)
  | OpSigindex i => v ← dynamic_sigindex i; mret (RValue v)
  | OpGlobal i => g ← global_cache i; mret (RGlobal g)
  | OpImportedFunc i => '(a, b) ← imported_func i; mret (RPair a b)
  end.

(** Any sequence of successful accessor calls within one function. *)
Inductive steps : CtxState -> CtxState -> Prop :=
| steps_refl s : steps s s
| steps_step s o r s' s'' : run_op o s = Some (r, s') -> steps s' s'' -> steps s s''.

(** The accessor states of a function compilation: built by [ctx] from a
    function whose first parameter is the context pointer, then any
    sequence of successful accessor calls. *)
Inductive reachable : CtxState -> Prop :=
| reach_init params code s :
    params !! 0 = Some (ctx_ptr_ty intr) -> ctx params code = Some s -> reachable s
| reach_step s o r s' : reachable s -> run_op o s = Some (r, s') -> reachable s'.

End Accessor.

(** ** Derived notions used in the statements *)

(** The declared memory type of a memory index, [None] when out of range. *)
Definition mem_type_of (info : ModuleInfo) (i : nat) : option MemoryType :=
  match local_or_import (length (imported_memories info)) i with
  | Local l => memories info !! l
  | Import j => imported_memories info !! j
  end.

Definition global_desc_of (info : ModuleInfo) (i : nat) : option GlobalDescriptor :=
  match local_or_import (length (imported_globals info)) i with
  | Local l => globals info !! l
  | Import j => imported_globals info !! j
  end.

(** The context field selected for the local and the imported space of
    memories (0/3), tables (1/4) and globals (2/5), zero-based as in the
    [build_struct_gep] calls. *)
Definition is_local (l : LocalOrImport) : bool :=
  match l with Local _ => true | Import _ => false end.

(** The code addresses field [k] of the context struct directly. *)
Definition reads_ctx_field (ctxp : value) (code : list instr) (k : nat) : Prop :=
  IStructGep ctxp k ∈ code.

Definition is_load (i : instr) : bool :=
  match i with ILoad _ => true | _ => false end.

(** [v] is the result of a load through [p] in the emitted code. *)
Definition loaded_through (code : list instr) (v p : value) : Prop :=
  exists n t, v = VInst n t /\ code !! n = Some (ILoad p).

(** [p] is a pointer to field [k] of a struct, computed in the emitted code. *)
Definition field_ptr (code : list instr) (p : value) (k : nat) : Prop :=
  exists n t q, p = VInst n t /\ code !! n = Some (IStructGep q k).

(** The cache entry an accessor call reads or fills. *)
Inductive CacheEntry :=
| EMemory (c : MemoryCache) | ETable (c : TableCache) | ESigindex (v : value)
| EGlobal (g : GlobalCache) | EImportedFunc (c : ImportedFuncCache).

Definition cache_entry (o : Op) (s : CtxState) : option CacheEntry :=
  match o with
  | OpMemory i => EMemory <$> cached_memories s !! i
  | OpTable i => ETable <$> cached_tables s !! i
  | OpSigindex i => ESigindex <$> cached_sigindices s !! i
  | OpGlobal i => EGlobal <$> cached_globals s !! i
  | OpImportedFunc i => EImportedFunc <$> cached_imported_functions s !! i
  end.

(** The five caches of [s'] are those of [s]. *)
Definition same_caches (s s' : CtxState) : Prop :=
  cached_memories s' = cached_memories s /\ cached_tables s' = cached_tables s /\
  cached_sigindices s' = cached_sigindices s /\ cached_globals s' = cached_globals s /\
  cached_imported_functions s' = cached_imported_functions s.

(** What a call that finds the entry [e] in its cache returns, and the
    code it emits, [n] being the number of instructions emitted before:
    two loads through the cached field pointers for a moving memory and
    for a table, the cached values themselves (and no code) otherwise. *)
Definition hit_result (e : CacheEntry) (n : nat) : OpResult * list instr :=
  match e with
  | EMemory (MDynamic p1 p2) =>
      (RPair (VInst n (TPtr (TInt 8))) (VInst (n + 1) (TInt 64)), [ILoad p1; ILoad p2])
  | EMemory (MStatic b bd) => (RPair b bd, [])
  | ETable tc =>
      (RPair (VInst n (TPtr (TInt 8))) (VInst (n + 1) (TInt 64)),
       [ILoad (t_ptr_to_base_ptr tc); ILoad (t_ptr_to_bounds tc)])
  | ESigindex v => (RValue v, [])
  | EGlobal g => (RGlobal g, [])
  | EImportedFunc c => (RPair (func_ptr c) (ctx_ptr c), [])
  end.

(** [v] is the result of the instruction [i] in the emitted code. *)
Definition defined_by (code : list instr) (v : value) (i : instr) : Prop :=
  exists n t, v = VInst n t /\ code !! n = Some i.

(** [e] is loaded from element [idx] of the array whose pointer is stored
    in field [f] of the context struct: [load (gep (load (ctx.f)) [idx])],
    the index being the [i32] constant [const_int i32_ty idx]. *)
Definition array_elem (code : list instr) (ctxp : value) (f idx : nat) (e : value) : Prop :=
  exists pp a ep,
    defined_by code pp (IStructGep ctxp f) /\ defined_by code a (ILoad pp) /\
    defined_by code ep (IInBoundsGep a [const_int (TInt 32) idx]) /\
    defined_by code e (ILoad ep).

(** The access path of [dynamic_sigindex]: an [i32] loaded from element
    [i] of the signature-index array of context field 7. *)
Definition sigindex_path (code : list instr) (ctxp : value) (i : nat) (v : value) : Prop :=
  type_of v = TInt 32 /\ array_elem code ctxp 7 i v.

(** The access path of [imported_func]: the function pointer and the
    context pointer are loaded from fields 0 and 1 of the descriptor that is
    element [i] of the imported-function array of context field 6. *)
Definition imported_func_path (code : list instr) (ctxp : value) (i : nat)
    (c : ImportedFuncCache) : Prop :=
  type_of (func_ptr c) = TPtr (TInt 8) /\ type_of (ctx_ptr c) = TPtr TCtx /\
  exists d p1 p2, array_elem code ctxp 6 i d /\
    defined_by code p1 (IStructGep d 0) /\ defined_by code p2 (IStructGep d 1) /\
    defined_by code (func_ptr c) (ILoad p1) /\ defined_by code (ctx_ptr c) (ILoad p2).

(** The access path of [global_cache(i)] for the global [i] of [info]:
    its pointer is element [l] of the globals array of context field 2
    when [i] resolves to the local global [l], of field 5 when it resolves
    to the imported global [l]; that pointer is cast to [i64] and back to
    the pointer type of the global's declared type.  A mutable global's
    entry is that typed pointer, an immutable global's entry a load
    through it. *)
Definition global_path (info : ModuleInfo) (code : list instr) (ctxp : value) (i : nat)
    (g : GlobalCache) : Prop :=
  exists d gp ip,
    global_desc_of info i = Some d /\
    array_elem code ctxp
      (if is_local (local_or_import (length (imported_globals info)) i) then 2 else 5)
      (match local_or_import (length (imported_globals info)) i with
       | Local l | Import l => l end) gp /\
    defined_by code ip (IPtrToInt gp (TInt 64)) /\
    match g with
    | GMut p =>
        mutable d = true /\
        defined_by code p (IIntToPtr ip (type_to_llvm_ptr intrinsics (ty d)))
    | GConst v =>
        mutable d = false /\
        exists tp, defined_by code v (ILoad tp) /\
          defined_by code tp (IIntToPtr ip (type_to_llvm_ptr intrinsics (ty d)))
    end.

(** Every cached signature index, imported function and global has its
    access path in the emitted code. *)
Record paths_ok (info : ModuleInfo) (s : CtxState) : Prop := {
  paths_sigindices : forall i v, cached_sigindices s !! i = Some v ->
    sigindex_path (builder s) (ctx_ptr_value s) i v;
  paths_imported_functions : forall i c, cached_imported_functions s !! i = Some c ->
    imported_func_path (builder s) (ctx_ptr_value s) i c;
  paths_globals : forall i g, cached_globals s !! i = Some g ->
    global_path info (builder s) (ctx_ptr_value s) i g;
}.

(** The values an instruction uses. *)
Definition operands (i : instr) : list value :=
  match i with
  | IStructGep p _ | ILoad p => [p]
  | IInBoundsGep p idx => p :: idx
  | IPtrToInt v _ | IIntToPtr v _ => [v]
  | ICall _ args => args
  end.

(** [v] may be used by the instruction at position [n]: it is the result
    of an earlier instruction, a constant, or parameter 0 of the function
    (the context pointer). *)
Definition available (n : nat) (v : value) : Prop :=
  match v with
  | VInst m _ => m < n
  | VParam k _ => k = 0
  | VConstInt _ _ => True
  end.

(** Code appended at position [base] uses only available values. *)
Definition well_scoped_from (base : nat) (new : list instr) : Prop :=
  forall k i, new !! k = Some i -> Forall (available (base + k)) (operands i).

Definition is_call (i : instr) : bool :=
  match i with ICall _ _ => true | _ => false end.

(** ** Proof infrastructure: computations that only emit code *)

Create HintDb emit_db.

(** [m] leaves the caches and the context pointer alone and only appends
    to the builder. *)
Definition builder_only {A} (m : M A) : Prop :=
  forall s x s', m s = Some (x, s') -> exists new, s' = set_builder (builder s ++ new) s.

Lemma set_builder_set_builder b b' s :
  set_builder b (set_builder b' s) = set_builder b s.
Proof. reflexivity. Qed.

Lemma set_builder_builder s : set_builder (builder s) s = s.
Proof. destruct s; reflexivity. Qed.

Lemma builder_set_builder b s : builder (set_builder b s) = b.
Proof. reflexivity. Qed.

Lemma builder_only_ret {A} (x : A) : builder_only (mret x).
Proof.
  intros s y s' H. cbv in H. injection H as <- <-.
  exists []. rewrite app_nil_r. destruct s; reflexivity.
Qed.

Lemma builder_only_bind {A B} (m : M A) (f : A -> M B) :
  builder_only m -> (forall x, builder_only (f x)) -> builder_only (m ≫= f).
Proof.
  intros Hm Hf s y s' H. unfold mbind, M_bind in H.
  destruct (m s) as [[x s1]|] eqn:E; [|discriminate].
  destruct (Hm _ _ _ E) as [n1 ->].
  destruct (Hf _ _ _ _ H) as [n2 ->].
  exists (n1 ++ n2). rewrite builder_set_builder, set_builder_set_builder, app_assoc.
  reflexivity.
Qed.

Lemma builder_only_panic {A} : builder_only (@panic A).
Proof. intros s x s' H. discriminate. Qed.

Lemma builder_only_unwrap {A} (o : option A) : builder_only (unwrap o).
Proof.
  intros s x s' H. unfold unwrap in H. destruct o; [|discriminate].
  injection H as <- <-. exists []. rewrite app_nil_r, set_builder_builder. reflexivity.
Qed.

Lemma builder_only_emit i t : builder_only (emit i t).
Proof. intros s x s' H. injection H as <- <-. eexists; reflexivity. Qed.

#[local] Hint Resolve builder_only_ret builder_only_panic builder_only_unwrap
  builder_only_emit : emit_db.

Ltac case_type :=
  repeat match goal with
         | |- builder_only (match ?x with _ => _ end) => destruct x
         end; eauto with emit_db.

Lemma builder_only_struct_gep intr p k : builder_only (build_struct_gep intr p k).
Proof. unfold build_struct_gep. case_type. Qed.

Lemma builder_only_load p : builder_only (build_load p).
Proof. unfold build_load. case_type. Qed.

Lemma builder_only_in_bounds_gep p idx : builder_only (build_in_bounds_gep p idx).
Proof. unfold build_in_bounds_gep. case_type. Qed.

Lemma builder_only_ptr_to_int v t : builder_only (build_ptr_to_int v t).
Proof. unfold build_ptr_to_int. case_type. Qed.

Lemma builder_only_int_to_ptr v t : builder_only (build_int_to_ptr v t).
Proof. unfold build_int_to_ptr. case_type. Qed.

Lemma builder_only_into_pointer_value v : builder_only (into_pointer_value v).
Proof. unfold into_pointer_value. case_type. Qed.

Lemma builder_only_into_int_value v : builder_only (into_int_value v).
Proof. unfold into_int_value. case_type. Qed.

#[local] Hint Resolve builder_only_struct_gep builder_only_load
  builder_only_in_bounds_gep builder_only_ptr_to_int builder_only_int_to_ptr
  builder_only_into_pointer_value builder_only_into_int_value : emit_db.

Ltac solve_builder_only :=
  repeat first
    [ apply builder_only_bind; intros
    | solve [eauto with emit_db]
    | match goal with
      | |- builder_only (let _ := _ in _) => cbv zeta
      | |- builder_only (match ?x with _ => _ end) => destruct x
      | |- builder_only (if ?b then _ else _) => destruct b
      end ].

Lemma builder_only_memory_derive intr info c i :
  builder_only (memory_derive intr info c i).
Proof. unfold memory_derive. solve_builder_only. Qed.

Lemma builder_only_table_derive intr info c i :
  builder_only (table_derive intr info c i).
Proof. unfold table_derive. solve_builder_only. Qed.

Lemma builder_only_sigindex_derive intr c i :
  builder_only (sigindex_derive intr c i).
Proof. unfold sigindex_derive. solve_builder_only. Qed.

Lemma builder_only_global_derive intr info c i :
  builder_only (global_derive intr info c i).
Proof. unfold global_derive. solve_builder_only. Qed.

Lemma builder_only_imported_func_derive intr c i :
  builder_only (imported_func_derive intr c i).
Proof. unfold imported_func_derive. solve_builder_only. Qed.

Lemma or_insert_with_inv {C} (get : CtxState -> gmap nat C) set index (f : M C) s c s' :
  or_insert_with get set index f s = Some (c, s') ->
  (get s !! index = Some c /\ s' = s) \/
  (get s !! index = None /\ exists s1, f s = Some (c, s1) /\
                                      s' = set (<[index := c]> (get s1)) s1).
Proof.
  unfold or_insert_with. destruct (get s !! index) as [c0|] eqn:E.
  - intros H. injection H as <- <-. left. auto.
  - destruct (f s) as [[c1 s1]|] eqn:Ef; [|discriminate].
    intros H. injection H as <- <-. right. eauto.
Qed.

(** ** Evaluating the accessors symbolically *)

Lemma build_struct_gep_ptr intr p st fs k t :
  type_of p = TPtr st -> struct_fields intr st = Some fs -> fs !! k = Some t ->
  build_struct_gep intr p k = emit (IStructGep p k) (TPtr t).
Proof. intros H1 H2 H3. unfold build_struct_gep. rewrite H1, H2, H3. reflexivity. Qed.

Lemma emit_eq i t s :
  emit i t s = Some (VInst (length (builder s)) t, set_builder (builder s ++ [i]) s).
Proof. reflexivity. Qed.

Ltac unfold_M :=
  unfold mbind, M_bind, mret, M_ret, gets, or_insert_with in *.

(** The code [memory_derive] (and likewise [table_derive]) emits for a
    descriptor of struct type [T], starting at builder position [n]: the
    array pointer field [f] of the context, the array, the descriptor
    pointer at [idx], and the pointers to fields 0 and 1 of the descriptor. *)
Definition descriptor_code (ctxp : value) (f idx n : nat) (T : llty) : list instr :=
  [ IStructGep ctxp f;
    ILoad (VInst n (TPtr (TPtr (TPtr T))));
    IInBoundsGep (VInst (n + 1) (TPtr (TPtr T))) [const_int (TInt 32) idx];
    ILoad (VInst (n + 2) (TPtr (TPtr T)));
    IStructGep (VInst (n + 3) (TPtr T)) 0;
    IStructGep (VInst (n + 3) (TPtr T)) 1 ].

(** The two loads through the pointers to the base and the bound fields. *)
Definition base_bound_loads (n : nat) : list instr :=
  [ ILoad (VInst (n + 4) (TPtr (TPtr (TInt 8))));
    ILoad (VInst (n + 5) (TPtr (TInt 64))) ].

Ltac finish_code :=
  rewrite ?length_app; simpl; rewrite <- ?app_assoc, <- ?Nat.add_assoc; simpl;
  reflexivity.

Ltac gep_ctx Hc k :=
  rewrite (build_struct_gep_ptr intrinsics _ TCtx declared_ctx_body k _ Hc eq_refl eq_refl),
    emit_eq; simpl.

Section Evaluation.
Context (info : ModuleInfo).

Lemma memory_miss i s mt :
  type_of (ctx_ptr_value s) = TPtr TCtx ->
  cached_memories s !! i = None ->
  mem_type_of info i = Some mt ->
  memory intrinsics info i s =
    let n := length (builder s) in
    let loc := local_or_import (length (imported_memories info)) i in
    let f := if is_local loc then 0 else 3 in
    let idx := match loc with Local l | Import l => l end in
    Some ((VInst (n + 6) (TPtr (TInt 8)), VInst (n + 7) (TInt 64)),
          set_memories
            (<[i := match mt with
                    | Dynamic => MDynamic (VInst (n + 4) (TPtr (TPtr (TInt 8))))
                                          (VInst (n + 5) (TPtr (TInt 64)))
                    | _ => MStatic (VInst (n + 6) (TPtr (TInt 8))) (VInst (n + 7) (TInt 64))
                    end]> (cached_memories s))
            (set_builder (builder s ++ descriptor_code (ctx_ptr_value s) f idx n local_memory_ty
                          ++ base_bound_loads n) s)).
Proof.
  intros Hc Hmiss Hmt. unfold mem_type_of in Hmt.
  unfold memory, memory_derive. unfold_M. rewrite Hmiss.
  destruct (local_or_import _ i) as [l|l]; simpl.
  - gep_ctx Hc 0. rewrite Hmt. simpl. destruct mt; simpl; finish_code.
  - gep_ctx Hc 3. rewrite Hmt. simpl. destruct mt; simpl; finish_code.
Qed.

Lemma memory_miss_invalid i s :
  cached_memories s !! i = None -> mem_type_of info i = None ->
  memory intrinsics info i s = None.
Proof.
  intros Hmiss Hmt. unfold mem_type_of in Hmt.
  unfold memory, memory_derive. unfold_M. rewrite Hmiss. simpl.
  destruct (local_or_import _ i) as [l|l]; simpl; rewrite Hmt;
    destruct (build_struct_gep _ _ _ s) as [[? ?]|]; reflexivity.
Qed.

Lemma memory_hit_dynamic i s p1 p2 :
  cached_memories s !! i = Some (MDynamic p1 p2) ->
  type_of p1 = TPtr (TPtr (TInt 8)) -> type_of p2 = TPtr (TInt 64) ->
  memory intrinsics info i s =
    let n := length (builder s) in
    Some ((VInst n (TPtr (TInt 8)), VInst (n + 1) (TInt 64)),
          set_builder (builder s ++ [ILoad p1; ILoad p2]) s).
Proof.
  intros Hhit H1 H2. unfold memory. unfold_M. rewrite Hhit. simpl.
  unfold build_load. rewrite H1. simpl. rewrite H2. simpl. finish_code.
Qed.

Lemma memory_hit_static i s b bd :
  cached_memories s !! i = Some (MStatic b bd) ->
  memory intrinsics info i s = Some ((b, bd), s).
Proof. intros Hhit. unfold memory. unfold_M. rewrite Hhit. reflexivity. Qed.

Lemma table_miss i s :
  type_of (ctx_ptr_value s) = TPtr TCtx ->
  cached_tables s !! i = None ->
  table intrinsics info i s =
    let n := length (builder s) in
    let loc := local_or_import (imported_tables info) i in
    let f := if is_local loc then 1 else 4 in
    let idx := match loc with Local l | Import l => l end in
    Some ((VInst (n + 6) (TPtr (TInt 8)), VInst (n + 7) (TInt 64)),
          set_tables
            (<[i := mkTableCache (VInst (n + 4) (TPtr (TPtr (TInt 8))))
                                 (VInst (n + 5) (TPtr (TInt 64)))]> (cached_tables s))
            (set_builder (builder s ++ descriptor_code (ctx_ptr_value s) f idx n local_table_ty
                          ++ base_bound_loads n) s)).
Proof.
  intros Hc Hmiss. unfold table, table_derive. unfold_M. rewrite Hmiss.
  destruct (local_or_import _ i) as [l|l]; simpl.
  - gep_ctx Hc 1. finish_code.
  - gep_ctx Hc 4. finish_code.
Qed.

Lemma table_hit i s tc :
  cached_tables s !! i = Some tc ->
  type_of (t_ptr_to_base_ptr tc) = TPtr (TPtr (TInt 8)) ->
  type_of (t_ptr_to_bounds tc) = TPtr (TInt 64) ->
  table intrinsics info i s =
    let n := length (builder s) in
    Some ((VInst n (TPtr (TInt 8)), VInst (n + 1) (TInt 64)),
          set_builder (builder s ++ [ILoad (t_ptr_to_base_ptr tc);
                                     ILoad (t_ptr_to_bounds tc)]) s).
Proof.
  intros Hhit H1 H2. unfold table. unfold_M. rewrite Hhit. simpl.
  unfold build_load. rewrite H1. simpl. rewrite H2. simpl. finish_code.
Qed.

Lemma sigindex_miss i s :
  type_of (ctx_ptr_value s) = TPtr TCtx ->
  cached_sigindices s !! i = None ->
  dynamic_sigindex intrinsics i s =
    let n := length (builder s) in
    Some (VInst (n + 3) (TInt 32),
          set_sigindices (<[i := VInst (n + 3) (TInt 32)]> (cached_sigindices s))
            (set_builder (builder s ++
               [ IStructGep (ctx_ptr_value s) 7;
                 ILoad (VInst n (TPtr (TPtr (TInt 32))));
                 IInBoundsGep (VInst (n + 1) (TPtr (TInt 32))) [const_int (TInt 32) i];
                 ILoad (VInst (n + 2) (TPtr (TInt 32))) ]) s)).
Proof.
  intros Hc Hmiss. unfold dynamic_sigindex, sigindex_derive. unfold_M. rewrite Hmiss.
  simpl. gep_ctx Hc 7. finish_code.
Qed.

Lemma sigindex_hit i s v :
  cached_sigindices s !! i = Some v -> dynamic_sigindex intrinsics i s = Some (v, s).
Proof. intros Hhit. unfold dynamic_sigindex. unfold_M. rewrite Hhit. reflexivity. Qed.

(** The code [global_derive] emits, [P] being the typed pointer type. *)
Definition global_code (ctxp : value) (f idx n : nat) (P : llty) : list instr :=
  [ IStructGep ctxp f;
    ILoad (VInst n (TPtr (TPtr (TPtr (TInt 64)))));
    IInBoundsGep (VInst (n + 1) (TPtr (TPtr (TInt 64)))) [const_int (TInt 32) idx];
    ILoad (VInst (n + 2) (TPtr (TPtr (TInt 64))));
    IPtrToInt (VInst (n + 3) (TPtr (TInt 64))) (TInt 64);
    IIntToPtr (VInst (n + 4) (TInt 64)) P ].

Lemma global_miss i s d :
  type_of (ctx_ptr_value s) = TPtr TCtx ->
  cached_globals s !! i = None ->
  global_desc_of info i = Some d ->
  global_cache intrinsics info i s =
    let n := length (builder s) in
    let loc := local_or_import (length (imported_globals info)) i in
    let f := if is_local loc then 2 else 5 in
    let idx := match loc with Local l | Import l => l end in
    let P := type_to_llvm_ptr intrinsics (ty d) in
    let code := builder s ++ global_code (ctx_ptr_value s) f idx n P in
    if mutable d then
      Some (GMut (VInst (n + 5) P),
            set_globals (<[i := GMut (VInst (n + 5) P)]> (cached_globals s))
              (set_builder code s))
    else
      let const w :=
        Some (GConst (VInst (n + 6) (TInt w)),
              set_globals (<[i := GConst (VInst (n + 6) (TInt w))]> (cached_globals s))
                (set_builder (code ++ [ILoad (VInst (n + 5) P)]) s)) in
      match ty d with
      | I32 => const 32
      | I64 => const 64
      | F32 | F64 => None
      end.
Proof.
  intros Hc Hmiss Hd. unfold global_desc_of in Hd.
  unfold global_cache, global_derive. unfold_M. rewrite Hmiss.
  destruct (local_or_import _ i) as [l|l]; simpl; rewrite Hd; simpl.
  - gep_ctx Hc 2.
    destruct d as [[] []]; simpl; try reflexivity; finish_code.
  - gep_ctx Hc 5.
    destruct d as [[] []]; simpl; try reflexivity; finish_code.
Qed.

Lemma global_miss_invalid i s :
  cached_globals s !! i = None -> global_desc_of info i = None ->
  global_cache intrinsics info i s = None.
Proof.
  intros Hmiss Hd. unfold global_desc_of in Hd.
  unfold global_cache, global_derive. unfold_M. rewrite Hmiss. simpl.
  destruct (local_or_import _ i) as [l|l]; simpl; rewrite Hd; reflexivity.
Qed.

Lemma global_hit i s g :
  cached_globals s !! i = Some g -> global_cache intrinsics info i s = Some (g, s).
Proof. intros Hhit. unfold global_cache. unfold_M. rewrite Hhit. reflexivity. Qed.

Lemma imported_func_miss i s :
  type_of (ctx_ptr_value s) = TPtr TCtx ->
  cached_imported_functions s !! i = None ->
  imported_func intrinsics i s =
    let n := length (builder s) in
    Some ((VInst (n + 6) (TPtr (TInt 8)), VInst (n + 7) (TPtr TCtx)),
          set_imported_functions
            (<[i := mkFuncCache (VInst (n + 6) (TPtr (TInt 8))) (VInst (n + 7) (TPtr TCtx))]>
               (cached_imported_functions s))
            (set_builder (builder s ++ descriptor_code (ctx_ptr_value s) 6 i n imported_func_ty
                          ++ [ ILoad (VInst (n + 4) (TPtr (TPtr (TInt 8))));
                               ILoad (VInst (n + 5) (TPtr (TPtr TCtx))) ]) s)).
Proof.
  intros Hc Hmiss. unfold imported_func, imported_func_derive. unfold_M. rewrite Hmiss.
  simpl. gep_ctx Hc 6. finish_code.
Qed.

Lemma imported_func_hit i s c :
  cached_imported_functions s !! i = Some c ->
  imported_func intrinsics i s = Some ((func_ptr c, ctx_ptr c), s).
Proof. intros Hhit. unfold imported_func. unfold_M. rewrite Hhit. reflexivity. Qed.

End Evaluation.

(** ** Accessor calls only extend the builder and the caches *)

Lemma bind_Some {A B} (m : M A) (f : A -> M B) s y s' :
  (m ≫= f) s = Some (y, s') -> exists x s1, m s = Some (x, s1) /\ f x s1 = Some (y, s').
Proof.
  unfold mbind, M_bind. destruct (m s) as [[x s1]|]; [|discriminate]. eauto.
Qed.

Record grows (s s' : CtxState) : Prop := {
  grows_ctx : ctx_ptr_value s' = ctx_ptr_value s;
  grows_builder : exists new, builder s' = builder s ++ new;
  grows_memories : forall k e, cached_memories s !! k = Some e -> cached_memories s' !! k = Some e;
  grows_tables : forall k e, cached_tables s !! k = Some e -> cached_tables s' !! k = Some e;
  grows_sigindices : forall k e, cached_sigindices s !! k = Some e -> cached_sigindices s' !! k = Some e;
  grows_globals : forall k e, cached_globals s !! k = Some e -> cached_globals s' !! k = Some e;
  grows_imported_functions : forall k e,
    cached_imported_functions s !! k = Some e -> cached_imported_functions s' !! k = Some e;
}.

Lemma grows_refl s : grows s s.
Proof. split; auto. exists []. by rewrite app_nil_r. Qed.

Lemma grows_trans s1 s2 s3 : grows s1 s2 -> grows s2 s3 -> grows s1 s3.
Proof.
  intros [H1 [n1 H2] H3 H4 H5 H6 H7] [G1 [n2 G2] G3 G4 G5 G6 G7]. split; auto.
  - congruence.
  - exists (n1 ++ n2). by rewrite G2, H2, app_assoc.
Qed.

Lemma grows_set_builder s new : grows s (set_builder (builder s ++ new) s).
Proof. split; eauto. Qed.

Lemma insert_fresh_keeps {C} (m : gmap nat C) i c k e :
  m !! i = None -> m !! k = Some e -> <[i := c]> m !! k = Some e.
Proof.
  intros Hi Hk. destruct (decide (i = k)) as [->|Hne].
  - congruence.
  - by rewrite lookup_insert_ne.
Qed.

#[local] Hint Resolve insert_fresh_keeps : emit_db.

Lemma grows_insert_memories s i c :
  cached_memories s !! i = None -> grows s (set_memories (<[i := c]> (cached_memories s)) s).
Proof. intros H. split; simpl; eauto with emit_db. exists []. by rewrite app_nil_r. Qed.

Lemma grows_insert_tables s i c :
  cached_tables s !! i = None -> grows s (set_tables (<[i := c]> (cached_tables s)) s).
Proof. intros H. split; simpl; eauto with emit_db. exists []. by rewrite app_nil_r. Qed.

Lemma grows_insert_sigindices s i c :
  cached_sigindices s !! i = None ->
  grows s (set_sigindices (<[i := c]> (cached_sigindices s)) s).
Proof. intros H. split; simpl; eauto with emit_db. exists []. by rewrite app_nil_r. Qed.

Lemma grows_insert_globals s i c :
  cached_globals s !! i = None -> grows s (set_globals (<[i := c]> (cached_globals s)) s).
Proof. intros H. split; simpl; eauto with emit_db. exists []. by rewrite app_nil_r. Qed.

Lemma grows_insert_imported_functions s i c :
  cached_imported_functions s !! i = None ->
  grows s (set_imported_functions (<[i := c]> (cached_imported_functions s)) s).
Proof. intros H. split; simpl; eauto with emit_db. exists []. by rewrite app_nil_r. Qed.

Lemma grows_builder_only {A} (m : M A) s x s' :
  builder_only m -> m s = Some (x, s') -> grows s s'.
Proof. intros Hm H. destruct (Hm _ _ _ H) as [new ->]. apply grows_set_builder. Qed.

Lemma memory_grows info i s r s' :
  memory intrinsics info i s = Some (r, s') -> grows s s'.
Proof.
  intros H. unfold memory in H.
  apply bind_Some in H as (ctxp & s1 & Hg & H).
  injection Hg as <- <-.
  apply bind_Some in H as (c & s2 & Ho & H).
  assert (Hk : grows s2 s').
  { eapply grows_builder_only; [|exact H]. solve_builder_only. }
  apply or_insert_with_inv in Ho as [[_ <-] | [Hnone (s3 & Hf & ->)]]; [exact Hk|].
  eapply grows_trans; [|exact Hk].
  destruct (builder_only_memory_derive _ _ _ _ _ _ _ Hf) as [n ->].
  eapply grows_trans; [apply (grows_set_builder s n)|].
  apply grows_insert_memories. exact Hnone.
Qed.

Lemma table_grows info i s r s' :
  table intrinsics info i s = Some (r, s') -> grows s s'.
Proof.
  intros H. unfold table in H.
  apply bind_Some in H as (ctxp & s1 & Hg & H).
  injection Hg as <- <-.
  apply bind_Some in H as (c & s2 & Ho & H).
  assert (Hk : grows s2 s').
  { eapply grows_builder_only; [|exact H]. solve_builder_only. }
  apply or_insert_with_inv in Ho as [[_ <-] | [Hnone (s3 & Hf & ->)]]; [exact Hk|].
  eapply grows_trans; [|exact Hk].
  destruct (builder_only_table_derive _ _ _ _ _ _ _ Hf) as [n ->].
  eapply grows_trans; [apply (grows_set_builder s n)|].
  apply grows_insert_tables. exact Hnone.
Qed.

Lemma sigindex_grows i s r s' :
  dynamic_sigindex intrinsics i s = Some (r, s') -> grows s s'.
Proof.
  intros H. unfold dynamic_sigindex in H.
  apply bind_Some in H as (ctxp & s1 & Hg & H).
  injection Hg as <- <-.
  apply or_insert_with_inv in H as [[_ <-] | [Hnone (s3 & Hf & ->)]]; [apply grows_refl|].
  destruct (builder_only_sigindex_derive _ _ _ _ _ _ Hf) as [n ->].
  eapply grows_trans; [apply (grows_set_builder s n)|].
  apply grows_insert_sigindices. exact Hnone.
Qed.

Lemma global_grows info i s r s' :
  global_cache intrinsics info i s = Some (r, s') -> grows s s'.
Proof.
  intros H. unfold global_cache in H.
  apply bind_Some in H as (ctxp & s1 & Hg & H).
  injection Hg as <- <-.
  apply or_insert_with_inv in H as [[_ <-] | [Hnone (s3 & Hf & ->)]]; [apply grows_refl|].
  destruct (builder_only_global_derive _ _ _ _ _ _ _ Hf) as [n ->].
  eapply grows_trans; [apply (grows_set_builder s n)|].
  apply grows_insert_globals. exact Hnone.
Qed.

Lemma imported_func_grows i s r s' :
  imported_func intrinsics i s = Some (r, s') -> grows s s'.
Proof.
  intros H. unfold imported_func in H.
  apply bind_Some in H as (ctxp & s1 & Hg & H).
  injection Hg as <- <-.
  apply bind_Some in H as (c & s2 & Ho & H).
  assert (Hk : grows s2 s').
  { eapply grows_builder_only; [|exact H]. solve_builder_only. }
  apply or_insert_with_inv in Ho as [[_ <-] | [Hnone (s3 & Hf & ->)]]; [exact Hk|].
  eapply grows_trans; [|exact Hk].
  destruct (builder_only_imported_func_derive _ _ _ _ _ _ Hf) as [n ->].
  eapply grows_trans; [apply (grows_set_builder s n)|].
  apply grows_insert_imported_functions. exact Hnone.
Qed.

Lemma run_op_grows info o s r s' :
  run_op intrinsics info o s = Some (r, s') -> grows s s'.
Proof.
  intros H. destruct o as [i|i|i|i|i]; simpl in H;
    apply bind_Some in H as (x & s0 & H & Hr); unfold mret, M_ret in Hr;
    repeat case_match; simplify_eq.
  - eapply memory_grows; eauto.
  - eapply table_grows; eauto.
  - eapply sigindex_grows; eauto.
  - eapply global_grows; eauto.
  - eapply imported_func_grows; eauto.
Qed.

Lemma steps_grows info s s' : steps intrinsics info s s' -> grows s s'.
Proof.
  induction 1 as [s|s o r s1 s2 Hop _ IH].
  - apply grows_refl.
  - eapply grows_trans; [eapply run_op_grows; eauto | exact IH].
Qed.

(** ** The invariant of the caches *)

(** What a memory cache entry may hold: the pointers to the base and the
    bound fields of a descriptor (relocatable memory), or the values loaded
    through them (fixed memory), with the types [memory_derive] gives them. *)
Definition mem_entry_ok (info : ModuleInfo) (code : list instr) (i : nat)
    (c : MemoryCache) : Prop :=
  match c with
  | MDynamic p1 p2 =>
      mem_type_of info i = Some Dynamic /\
      type_of p1 = TPtr (TPtr (TInt 8)) /\ type_of p2 = TPtr (TInt 64) /\
      field_ptr code p1 0 /\ field_ptr code p2 1
  | MStatic b bd =>
      (mem_type_of info i = Some Static \/ mem_type_of info i = Some SharedStatic) /\
      type_of b = TPtr (TInt 8) /\ type_of bd = TInt 64 /\
      exists p1 p2, field_ptr code p1 0 /\ field_ptr code p2 1 /\
                    loaded_through code b p1 /\ loaded_through code bd p2
  end.

Definition table_entry_ok (code : list instr) (tc : TableCache) : Prop :=
  type_of (t_ptr_to_base_ptr tc) = TPtr (TPtr (TInt 8)) /\
  type_of (t_ptr_to_bounds tc) = TPtr (TInt 64) /\
  field_ptr code (t_ptr_to_base_ptr tc) 0 /\ field_ptr code (t_ptr_to_bounds tc) 1.

Definition global_entry_ok (info : ModuleInfo) (code : list instr) (i : nat)
    (g : GlobalCache) : Prop :=
  exists d, global_desc_of info i = Some d /\
  match g with
  | GMut p => mutable d = true /\ type_of p = type_to_llvm_ptr intrinsics (ty d)
  | GConst v => mutable d = false /\
                ((ty d = I32 /\ type_of v = TInt 32) \/ (ty d = I64 /\ type_of v = TInt 64)) /\
                exists p, type_of p = type_to_llvm_ptr intrinsics (ty d) /\
                          loaded_through code v p
  end.

Record wf (info : ModuleInfo) (s : CtxState) : Prop := {
  wf_ctx : type_of (ctx_ptr_value s) = TPtr TCtx;
  wf_memories : forall i c, cached_memories s !! i = Some c -> mem_entry_ok info (builder s) i c;
  wf_tables : forall i tc, cached_tables s !! i = Some tc -> table_entry_ok (builder s) tc;
  wf_globals : forall i g, cached_globals s !! i = Some g -> global_entry_ok info (builder s) i g;
}.

Lemma field_ptr_app code new p k : field_ptr code p k -> field_ptr (code ++ new) p k.
Proof.
  intros (n & t & q & -> & H). exists n, t, q. split; [done|]. by apply lookup_app_l_Some.
Qed.

Lemma loaded_through_app code new v p :
  loaded_through code v p -> loaded_through (code ++ new) v p.
Proof.
  intros (n & t & -> & H). exists n, t. split; [done|]. by apply lookup_app_l_Some.
Qed.

Lemma lookup_app_plus {A} (l m : list A) k : (l ++ m) !! (length l + k) = m !! k.
Proof. rewrite lookup_app_r by lia. f_equal. lia. Qed.

#[local] Hint Resolve field_ptr_app loaded_through_app : emit_db.

Lemma mem_entry_ok_app info code new i c :
  mem_entry_ok info code i c -> mem_entry_ok info (code ++ new) i c.
Proof.
  destruct c; simpl; intros H.
  - destruct H as (H1 & H2 & H3 & H4 & H5). repeat split; eauto with emit_db.
  - destruct H as (H1 & H2 & H3 & p1 & p2 & H4 & H5 & H6 & H7).
    repeat split; auto. exists p1, p2. repeat split; eauto with emit_db.
Qed.

Lemma table_entry_ok_app code new tc :
  table_entry_ok code tc -> table_entry_ok (code ++ new) tc.
Proof. intros (H1 & H2 & H3 & H4). repeat split; eauto with emit_db. Qed.

Lemma global_entry_ok_app info code new i g :
  global_entry_ok info code i g -> global_entry_ok info (code ++ new) i g.
Proof.
  intros (d & Hd & H). exists d. split; [done|]. destruct g; [done|].
  destruct H as (H1 & H2 & p & H3 & H4). repeat split; auto. eauto with emit_db.
Qed.

Lemma wf_extend info s new : wf info s -> wf info (set_builder (builder s ++ new) s).
Proof.
  intros [W1 W2 W3 W4]. split; simpl; auto.
  - intros. apply mem_entry_ok_app. auto.
  - intros. apply table_entry_ok_app. eauto.
  - intros. apply global_entry_ok_app. auto.
Qed.

Lemma lookup_insert_inv {C} (m : gmap nat C) i c k e :
  <[i := c]> m !! k = Some e -> (k = i /\ e = c) \/ m !! k = Some e.
Proof.
  destruct (decide (i = k)) as [->|Hne].
  - rewrite lookup_insert_eq. intros [= ->]. auto.
  - rewrite lookup_insert_ne by exact Hne. auto.
Qed.

Lemma wf_insert_memory info s new i e :
  wf info s -> cached_memories s !! i = None -> mem_entry_ok info (builder s ++ new) i e ->
  wf info (set_memories (<[i := e]> (cached_memories s)) (set_builder (builder s ++ new) s)).
Proof.
  intros Hwf Hi He. destruct (wf_extend info s new Hwf) as [W1 W2 W3 W4].
  split; simpl in *; auto.
  intros k e' Hk. apply lookup_insert_inv in Hk as [[-> ->]|Hk]; auto.
Qed.

Lemma wf_insert_table info s new i e :
  wf info s -> table_entry_ok (builder s ++ new) e ->
  wf info (set_tables (<[i := e]> (cached_tables s)) (set_builder (builder s ++ new) s)).
Proof.
  intros Hwf He. destruct (wf_extend info s new Hwf) as [W1 W2 W3 W4].
  split; simpl in *; auto.
  intros k e' Hk. apply lookup_insert_inv in Hk as [[-> ->]|Hk]; eauto.
Qed.

Lemma wf_insert_global info s new i e :
  wf info s -> global_entry_ok info (builder s ++ new) i e ->
  wf info (set_globals (<[i := e]> (cached_globals s)) (set_builder (builder s ++ new) s)).
Proof.
  intros Hwf He. destruct (wf_extend info s new Hwf) as [W1 W2 W3 W4].
  split; simpl in *; auto.
  intros k e' Hk. apply lookup_insert_inv in Hk as [[-> ->]|Hk]; auto.
Qed.

Lemma wf_set_sigindices info s new m :
  wf info s -> wf info (set_sigindices m (set_builder (builder s ++ new) s)).
Proof. intros Hwf. destruct (wf_extend info s new Hwf). split; auto. Qed.

Lemma wf_set_imported_functions info s new m :
  wf info s -> wf info (set_imported_functions m (set_builder (builder s ++ new) s)).
Proof. intros Hwf. destruct (wf_extend info s new Hwf). split; auto. Qed.

(** Locating an instruction emitted after the code [l]. *)
Ltac code_at :=
  match goal with
  | |- field_ptr (?l ++ _) _ _ =>
      eexists _, _, _; split; [reflexivity | rewrite lookup_app_plus; simpl; reflexivity]
  | |- loaded_through (?l ++ _) _ _ =>
      eexists _, _; split; [reflexivity | rewrite lookup_app_plus; simpl; reflexivity]
  end.

Lemma memory_wf info i s r s' :
  wf info s -> memory intrinsics info i s = Some (r, s') -> wf info s'.
Proof.
  intros Hwf H.
  destruct (cached_memories s !! i) as [c|] eqn:Hc.
  - pose proof (wf_memories _ _ Hwf _ _ Hc) as Hok.
    destruct c as [p1 p2|b bd].
    + destruct Hok as (_ & T1 & T2 & _).
      rewrite (memory_hit_dynamic info i s p1 p2 Hc T1 T2) in H.
      injection H as _ <-. by apply wf_extend.
    + rewrite (memory_hit_static info i s b bd Hc) in H. by injection H as _ <-.
  - destruct (mem_type_of info i) as [mt|] eqn:Hmt.
    2: { by rewrite (memory_miss_invalid info i s Hc Hmt) in H. }
    rewrite (memory_miss info i s mt (wf_ctx _ _ Hwf) Hc Hmt) in H.
    injection H as _ <-. apply wf_insert_memory; auto.
    destruct mt; simpl; rewrite Hmt; repeat split; auto; try code_at.
    all: exists (VInst (length (builder s) + 4) (TPtr (TPtr (TInt 8)))),
              (VInst (length (builder s) + 5) (TPtr (TInt 64))).
    all: repeat split; code_at.
Qed.

Lemma table_wf info i s r s' :
  wf info s -> table intrinsics info i s = Some (r, s') -> wf info s'.
Proof.
  intros Hwf H.
  destruct (cached_tables s !! i) as [tc|] eqn:Hc.
  - destruct (wf_tables _ _ Hwf _ _ Hc) as (T1 & T2 & _).
    rewrite (table_hit info i s tc Hc T1 T2) in H.
    injection H as _ <-. by apply wf_extend.
  - rewrite (table_miss info i s (wf_ctx _ _ Hwf) Hc) in H.
    injection H as _ <-. apply wf_insert_table; auto.
    repeat split; simpl; code_at.
Qed.

Lemma sigindex_wf info i s r s' :
  wf info s -> dynamic_sigindex intrinsics i s = Some (r, s') -> wf info s'.
Proof.
  intros Hwf H.
  destruct (cached_sigindices s !! i) as [v|] eqn:Hc.
  - rewrite (sigindex_hit i s v Hc) in H. by injection H as _ <-.
  - rewrite (sigindex_miss i s (wf_ctx _ _ Hwf) Hc) in H.
    injection H as _ <-. by apply wf_set_sigindices.
Qed.

Lemma global_wf info i s r s' :
  wf info s -> global_cache intrinsics info i s = Some (r, s') -> wf info s'.
Proof.
  intros Hwf H.
  destruct (cached_globals s !! i) as [g|] eqn:Hc.
  - rewrite (global_hit info i s g Hc) in H. by injection H as _ <-.
  - destruct (global_desc_of info i) as [d|] eqn:Hd.
    2: { by rewrite (global_miss_invalid info i s Hc Hd) in H. }
    rewrite (global_miss info i s d (wf_ctx _ _ Hwf) Hc Hd) in H.
    destruct d as [m t]; simpl in H.
    destruct m; [|destruct t]; simpl in H; try discriminate;
      injection H as _ <-; rewrite <- ?app_assoc; apply wf_insert_global; auto;
      eexists; (split; [exact Hd|]); simpl; repeat split; auto.
    all: eexists; split; [|code_at]; reflexivity.
Qed.

Lemma imported_func_wf info i s r s' :
  wf info s -> imported_func intrinsics i s = Some (r, s') -> wf info s'.
Proof.
  intros Hwf H.
  destruct (cached_imported_functions s !! i) as [c|] eqn:Hc.
  - rewrite (imported_func_hit i s c Hc) in H. by injection H as _ <-.
  - rewrite (imported_func_miss i s (wf_ctx _ _ Hwf) Hc) in H.
    injection H as _ <-. by apply wf_set_imported_functions.
Qed.

Lemma run_op_wf info o s r s' :
  wf info s -> run_op intrinsics info o s = Some (r, s') -> wf info s'.
Proof.
  intros Hwf H. destruct o as [i|i|i|i|i]; simpl in H;
    apply bind_Some in H as (x & s0 & H & Hr); unfold mret, M_ret in Hr;
    repeat case_match; simplify_eq.
  - eapply memory_wf; eauto.
  - eapply table_wf; eauto.
  - eapply sigindex_wf; eauto.
  - eapply global_wf; eauto.
  - eapply imported_func_wf; eauto.
Qed.

Lemma reachable_wf info s : reachable intrinsics info s -> wf info s.
Proof.
  induction 1 as [params code s Hp Hctx|s o r s' _ IH Hop].
  - unfold ctx in Hctx. rewrite Hp in Hctx. simpl in Hctx. injection Hctx as <-.
    split; simpl; auto; intros ? ?; rewrite lookup_empty; discriminate.
  - eapply run_op_wf; eauto.
Qed.

Lemma steps_reachable info s s' :
  reachable intrinsics info s -> steps intrinsics info s s' -> reachable intrinsics info s'.
Proof.
  intros Hr Hs. induction Hs as [s|s o r s1 s2 Hop _ IH]; auto.
  apply IH. eapply reach_step; eauto.
Qed.

(** ** One call of [memory] *)

Lemma run_op_memory info i s a b s1 :
  memory intrinsics info i s = Some ((a, b), s1) ->
  run_op intrinsics info (OpMemory i) s = Some (RPair a b, s1).
Proof. intros H. simpl. unfold_M. rewrite H. reflexivity. Qed.

Lemma memory_call info i s r s1 :
  wf info s -> memory intrinsics info i s = Some (r, s1) ->
  (exists p1 p2, mem_type_of info i = Some Dynamic /\
     cached_memories s1 !! i = Some (MDynamic p1 p2) /\
     (forall e, cached_memories s !! i = Some e -> e = MDynamic p1 p2) /\
     exists pre, builder s1 = pre ++ [ILoad p1; ILoad p2] /\
                 r = (VInst (length pre) (TPtr (TInt 8)), VInst (length pre + 1) (TInt 64)))
  \/
  ((mem_type_of info i = Some Static \/ mem_type_of info i = Some SharedStatic) /\
   cached_memories s1 !! i = Some (MStatic (fst r) (snd r))).
Proof.
  intros Hwf H.
  destruct (cached_memories s !! i) as [c|] eqn:Hc.
  - pose proof (wf_memories _ _ Hwf _ _ Hc) as Hok.
    destruct c as [p1 p2|b bd].
    + destruct Hok as (Ht & T1 & T2 & _).
      rewrite (memory_hit_dynamic info i s p1 p2 Hc T1 T2) in H.
      injection H as <- <-. left. exists p1, p2. repeat split; auto.
      * intros e He. congruence.
      * exists (builder s). split; reflexivity.
    + rewrite (memory_hit_static info i s b bd Hc) in H.
      injection H as <- <-. right. destruct Hok as (Ht & _). auto.
  - destruct (mem_type_of info i) as [mt|] eqn:Hmt.
    2: { by rewrite (memory_miss_invalid info i s Hc Hmt) in H. }
    rewrite (memory_miss info i s mt (wf_ctx _ _ Hwf) Hc Hmt) in H.
    injection H as <- <-.
    destruct mt; [left| right; simpl; rewrite lookup_insert_eq; auto ..].
    eexists _, _. split; [reflexivity|]. split; [simpl; apply lookup_insert_eq|].
    split; [intros e He; congruence|].
    exists (builder s ++ descriptor_code (ctx_ptr_value s)
              (if is_local (local_or_import (length (imported_memories info)) i) then 0 else 3)
              (match local_or_import (length (imported_memories info)) i with
               | Local l | Import l => l end)
              (length (builder s)) local_memory_ty).
    simpl. rewrite <- app_assoc. split; [reflexivity|].
    rewrite length_app. simpl. rewrite <- Nat.add_assoc. reflexivity.
Qed.

Lemma memory_call_valid info i s r s1 :
  wf info s -> memory intrinsics info i s = Some (r, s1) -> mem_type_of info i <> None.
Proof.
  intros Hwf H. destruct (memory_call info i s r s1 Hwf H) as [(? & ? & -> & _)|[[->| ->] _]];
    discriminate.
Qed.

(** ** Concrete inputs *)

(** A module with one imported fixed memory (index 0) and one local
    relocatable memory (index 1), one imported table, one imported immutable
    I64 global (index 0), a local mutable F32 global (index 1) and a local
    immutable F32 global (index 2). *)
Definition example_info : ModuleInfo :=
  mkInfo [Dynamic] [Static] 1
    [mkGlobalDesc true F32; mkGlobalDesc false F32] [mkGlobalDesc false I64].

(** The accessor of a function whose only parameter is the context pointer,
    before any code is emitted. *)
Definition example_state : CtxState := mkCtx (VParam 0 (TPtr TCtx)) [] ∅ ∅ ∅ ∅ ∅.

Lemma example_state_reachable info : reachable intrinsics info example_state.
Proof. apply (reach_init intrinsics info [TPtr TCtx] []); reflexivity. Qed.

(** ** C1: relocatable memories are re-loaded, fixed memories are cached *)

(** C1.  For a relocatable ([Dynamic]) memory, [memory(index)] caches the
    pointers to the base and the bound fields of the descriptor, and every
    call, first or repeated, ends with two fresh loads through these same
    pointers and returns their results.  For a fixed ([Static] or
    [SharedStatic]) memory, the cache holds the values loaded through those
    field pointers, the call returns them, and every later call returns them
    unchanged without emitting any code. *)
Theorem memory_cache_discipline (info : ModuleInfo) (i : nat) (s s1 : CtxState)
    (r : value * value) :
  reachable intrinsics info s ->
  memory intrinsics info i s = Some (r, s1) ->
  match mem_type_of info i with
  | Some Dynamic =>
      exists p1 p2,
        cached_memories s1 !! i = Some (MDynamic p1 p2) /\
        field_ptr (builder s1) p1 0 /\ field_ptr (builder s1) p2 1 /\
        (exists pre, builder s1 = pre ++ [ILoad p1; ILoad p2] /\
           r = (VInst (length pre) (TPtr (TInt 8)), VInst (length pre + 1) (TInt 64))) /\
        (forall s2 r2 s3, steps intrinsics info s1 s2 ->
           memory intrinsics info i s2 = Some (r2, s3) ->
           builder s3 = builder s2 ++ [ILoad p1; ILoad p2] /\
           r2 = (VInst (length (builder s2)) (TPtr (TInt 8)),
                 VInst (length (builder s2) + 1) (TInt 64)))
  | Some Static | Some SharedStatic =>
      cached_memories s1 !! i = Some (MStatic (fst r) (snd r)) /\
      (exists p1 p2, field_ptr (builder s1) p1 0 /\ field_ptr (builder s1) p2 1 /\
         loaded_through (builder s1) (fst r) p1 /\ loaded_through (builder s1) (snd r) p2) /\
      (forall s2 r2 s3, steps intrinsics info s1 s2 ->
         memory intrinsics info i s2 = Some (r2, s3) -> r2 = r /\ s3 = s2)
  | None => False
  end.
Proof.
  intros Hr H.
  pose proof (reachable_wf _ _ Hr) as Hwf.
  assert (Hr1 : reachable intrinsics info s1).
  { destruct r as [a b]. eapply reach_step; [exact Hr|]. apply run_op_memory. exact H. }
  pose proof (reachable_wf _ _ Hr1) as Hwf1.
  destruct (memory_call info i s r s1 Hwf H)
    as [(p1 & p2 & Hmt & Hc1 & _ & Hpre)|[Hmt Hc1]].
  - rewrite Hmt.
    destruct (wf_memories _ _ Hwf1 _ _ Hc1) as (_ & T1 & T2 & F1 & F2).
    exists p1, p2. split; [exact Hc1|]. split; [exact F1|]. split; [exact F2|].
    split; [exact Hpre|].
    intros s2 r2 s3 Hs H2.
    pose proof (grows_memories _ _ (steps_grows _ _ _ Hs) _ _ Hc1) as Hc2.
    rewrite (memory_hit_dynamic info i s2 p1 p2 Hc2 T1 T2) in H2.
    injection H2 as <- <-. auto.
  - pose proof (wf_memories _ _ Hwf1 _ _ Hc1) as (_ & _ & _ & Hprov).
    assert (Hlater : forall s2 r2 s3, steps intrinsics info s1 s2 ->
              memory intrinsics info i s2 = Some (r2, s3) -> r2 = r /\ s3 = s2).
    { intros s2 r2 s3 Hs H2.
      pose proof (grows_memories _ _ (steps_grows _ _ _ Hs) _ _ Hc1) as Hc2.
      rewrite (memory_hit_static info i s2 _ _ Hc2) in H2.
      injection H2 as <- <-. destruct r; auto. }
    destruct Hmt as [-> | ->]; auto.
Qed.

Lemma memory_cache_discipline_witness :
  exists r s1,
    reachable intrinsics example_info example_state /\
    memory intrinsics example_info 1 example_state = Some (r, s1) /\
    match mem_type_of example_info 1 with
    | Some Dynamic =>
        exists p1 p2,
          cached_memories s1 !! 1 = Some (MDynamic p1 p2) /\
          field_ptr (builder s1) p1 0 /\ field_ptr (builder s1) p2 1 /\
          (exists pre, builder s1 = pre ++ [ILoad p1; ILoad p2] /\
             r = (VInst (length pre) (TPtr (TInt 8)), VInst (length pre + 1) (TInt 64))) /\
          (forall s2 r2 s3, steps intrinsics example_info s1 s2 ->
             memory intrinsics example_info 1 s2 = Some (r2, s3) ->
             builder s3 = builder s2 ++ [ILoad p1; ILoad p2] /\
             r2 = (VInst (length (builder s2)) (TPtr (TInt 8)),
                   VInst (length (builder s2) + 1) (TInt 64)))
    | Some Static | Some SharedStatic =>
        cached_memories s1 !! 1 = Some (MStatic (fst r) (snd r)) /\
        (exists p1 p2, field_ptr (builder s1) p1 0 /\ field_ptr (builder s1) p2 1 /\
           loaded_through (builder s1) (fst r) p1 /\ loaded_through (builder s1) (snd r) p2) /\
        (forall s2 r2 s3, steps intrinsics example_info s1 s2 ->
           memory intrinsics example_info 1 s2 = Some (r2, s3) -> r2 = r /\ s3 = s2)
    | None => False
    end.
Proof.
  eexists _, _.
  assert (Hr : reachable intrinsics example_info example_state)
    by (apply (reach_init intrinsics example_info [TPtr TCtx] []); reflexivity).
  assert (Hm : memory intrinsics example_info 1 example_state = Some (_, _))
    by (vm_compute; reflexivity).
  split; [exact Hr|]. split; [exact Hm|].
  exact (memory_cache_discipline example_info 1 example_state _ _ Hr Hm).
Defined.

Lemma reachable_ctx info s :
  reachable intrinsics info s -> ctx_ptr_value s = VParam 0 (TPtr TCtx).
Proof.
  induction 1 as [params code s Hp Hctx|s o r s' _ IH Hop].
  - unfold ctx in Hctx. rewrite Hp in Hctx. simpl in Hctx. by injection Hctx as <-.
  - rewrite (grows_ctx _ _ (run_op_grows _ _ _ _ _ Hop)). exact IH.
Qed.

Ltac solve_reads Hctx :=
  unfold reads_ctx_field, descriptor_code, base_bound_loads, global_code;
  rewrite Hctx; rewrite ?elem_of_app, ?elem_of_cons, ?elem_of_nil;
  split; [intros; destruct_or?; congruence | intros ->; eauto 10].

(** ** C3: the local and the imported spaces read different context fields *)

(** C3.  When [memory], [table] or [global_cache] resolves an index (cache
    miss), the only context fields its code addresses are field 0 for a
    local and field 3 for an imported memory, 1 and 4 for tables, 2 and 5
    for globals (zero-based [build_struct_gep] indices; fields 1/4, 2/5 and
    3/6 in the spec's one-based numbering).  The two fields of each kind
    differ, so a local index and an imported index never read the same
    context field. *)
Theorem context_field_selection (info : ModuleInfo) (s : CtxState) (i : nat) :
  reachable intrinsics info s ->
  (cached_memories s !! i = None ->
   forall r s1, memory intrinsics info i s = Some (r, s1) ->
   exists new, builder s1 = builder s ++ new /\
     forall k, reads_ctx_field (ctx_ptr_value s) new k <->
       k = if is_local (local_or_import (length (imported_memories info)) i) then 0 else 3) /\
  (cached_tables s !! i = None ->
   forall r s1, table intrinsics info i s = Some (r, s1) ->
   exists new, builder s1 = builder s ++ new /\
     forall k, reads_ctx_field (ctx_ptr_value s) new k <->
       k = if is_local (local_or_import (imported_tables info) i) then 1 else 4) /\
  (cached_globals s !! i = None ->
   forall g s1, global_cache intrinsics info i s = Some (g, s1) ->
   exists new, builder s1 = builder s ++ new /\
     forall k, reads_ctx_field (ctx_ptr_value s) new k <->
       k = if is_local (local_or_import (length (imported_globals info)) i) then 2 else 5) /\
  0 <> 3 /\ 1 <> 4 /\ 2 <> 5.
Proof.
  intros Hr. pose proof (reachable_wf _ _ Hr) as Hwf.
  pose proof (reachable_ctx _ _ Hr) as Hctx.
  split; [|split; [|split]].
  - intros Hc r s1 H.
    destruct (mem_type_of info i) as [mt|] eqn:Hmt.
    2: { by rewrite (memory_miss_invalid info i s Hc Hmt) in H. }
    rewrite (memory_miss info i s mt (wf_ctx _ _ Hwf) Hc Hmt) in H.
    injection H as _ <-. eexists. split; [reflexivity|].
    intros k. simpl. solve_reads Hctx.
  - intros Hc r s1 H.
    rewrite (table_miss info i s (wf_ctx _ _ Hwf) Hc) in H.
    injection H as _ <-. eexists. split; [reflexivity|].
    intros k. simpl. solve_reads Hctx.
  - intros Hc g s1 H.
    destruct (global_desc_of info i) as [d|] eqn:Hd.
    2: { by rewrite (global_miss_invalid info i s Hc Hd) in H. }
    rewrite (global_miss info i s d (wf_ctx _ _ Hwf) Hc Hd) in H.
    destruct d as [[] []]; simpl in H; try discriminate;
      injection H as _ <-; rewrite <- ?app_assoc; eexists; (split; [reflexivity|]);
      intros k; simpl; solve_reads Hctx.
  - lia.
Qed.

Lemma context_field_selection_witness :
  reachable intrinsics example_info example_state /\
  cached_memories example_state !! 0 = None /\
  (exists r s1, memory intrinsics example_info 0 example_state = Some (r, s1)) /\
  ((cached_memories example_state !! 0 = None ->
    forall r s1, memory intrinsics example_info 0 example_state = Some (r, s1) ->
    exists new, builder s1 = builder example_state ++ new /\
      forall k, reads_ctx_field (ctx_ptr_value example_state) new k <->
        k = if is_local (local_or_import (length (imported_memories example_info)) 0)
            then 0 else 3) /\
   (cached_tables example_state !! 0 = None ->
    forall r s1, table intrinsics example_info 0 example_state = Some (r, s1) ->
    exists new, builder s1 = builder example_state ++ new /\
      forall k, reads_ctx_field (ctx_ptr_value example_state) new k <->
        k = if is_local (local_or_import (imported_tables example_info) 0) then 1 else 4) /\
   (cached_globals example_state !! 0 = None ->
    forall g s1, global_cache intrinsics example_info 0 example_state = Some (g, s1) ->
    exists new, builder s1 = builder example_state ++ new /\
      forall k, reads_ctx_field (ctx_ptr_value example_state) new k <->
        k = if is_local (local_or_import (length (imported_globals example_info)) 0)
            then 2 else 5) /\
   0 <> 3 /\ 1 <> 4 /\ 2 <> 5).
Proof.
  assert (Hr : reachable intrinsics example_info example_state)
    by (apply (reach_init intrinsics example_info [TPtr TCtx] []); reflexivity).
  split; [exact Hr|]. split; [reflexivity|].
  split; [eexists _, _; vm_compute; reflexivity|].
  exact (context_field_selection example_info example_state 0 Hr).
Defined.

(** ** C9 and C2: constant globals must be integers *)

(** C9.  [global_cache] on a valid global index panics exactly when the
    global is immutable and of type [F32] or [F64]: the value loaded from
    the slot goes through [into_int_value] into [GlobalCache::Const], which
    holds an integer value.  When it does return for an immutable global,
    the result is [Const] of an [i32] or [i64] value. *)
Theorem global_cache_const_is_int (info : ModuleInfo) (s : CtxState) (i : nat)
    (d : GlobalDescriptor) :
  reachable intrinsics info s ->
  global_desc_of info i = Some d ->
  (global_cache intrinsics info i s = None <->
   mutable d = false /\ (ty d = F32 \/ ty d = F64)) /\
  (forall g s1, global_cache intrinsics info i s = Some (g, s1) -> mutable d = false ->
   exists v, g = GConst v /\ (type_of v = TInt 32 \/ type_of v = TInt 64)).
Proof.
  intros Hr Hd. pose proof (reachable_wf _ _ Hr) as Hwf.
  destruct (cached_globals s !! i) as [g|] eqn:Hc.
  - rewrite (global_hit info i s g Hc).
    destruct (wf_globals _ _ Hwf _ _ Hc) as (d' & Hd' & Hg).
    rewrite Hd in Hd'. injection Hd' as <-.
    split.
    + split; [discriminate|]. intros [Hm Ht].
      destruct g as [p|v]; simpl in Hg.
      * destruct Hg as [Hm' _]; congruence.
      * destruct Hg as (_ & [[Hty _]|[Hty _]] & _); destruct Ht; congruence.
    + intros g' s1 [= <- <-] Hm. destruct g as [p|v]; simpl in Hg.
      * destruct Hg as [Hm' _]; congruence.
      * exists v. split; [done|]. destruct Hg as (_ & [[_ ?]|[_ ?]] & _); auto.
  - rewrite (global_miss info i s d (wf_ctx _ _ Hwf) Hc Hd).
    destruct d as [[] []]; simpl; split; try (split; intros; destruct_and?; destruct_or?;
      discriminate || naive_solver);
      intros g s1 Hg Hm; try discriminate; injection Hg as <- <-; eauto.
Qed.

Lemma global_cache_const_is_int_witness :
  reachable intrinsics example_info example_state /\
  global_desc_of example_info 2 = Some (mkGlobalDesc false F32) /\
  (global_cache intrinsics example_info 2 example_state = None <->
   mutable (mkGlobalDesc false F32) = false /\
   (ty (mkGlobalDesc false F32) = F32 \/ ty (mkGlobalDesc false F32) = F64)) /\
  (forall g s1, global_cache intrinsics example_info 2 example_state = Some (g, s1) ->
   mutable (mkGlobalDesc false F32) = false ->
   exists v, g = GConst v /\ (type_of v = TInt 32 \/ type_of v = TInt 64)).
Proof.
  assert (Hr : reachable intrinsics example_info example_state)
    by (apply (reach_init intrinsics example_info [TPtr TCtx] []); reflexivity).
  assert (Hd : global_desc_of example_info 2 = Some (mkGlobalDesc false F32))
    by reflexivity.
  split; [exact Hr|]. split; [exact Hd|].
  exact (global_cache_const_is_int example_info example_state 2 _ Hr Hd).
Defined.

(** C2 (divergence).  On [example_info], global 2 is a local immutable
    [F32] global.  [global_cache] on it, from a fresh accessor, panics (the
    loaded float goes through [into_int_value]) instead of returning a
    cached constant. *)
Theorem global_cache_immutable_float_panics :
  global_desc_of example_info 2 = Some (mkGlobalDesc false F32) /\
  global_cache intrinsics example_info 2 example_state = None.
Proof. split; vm_compute; reflexivity. Qed.

(** ** C4: every accessor derives its access path once *)

Lemma grows_cache_entry o s s' e :
  grows s s' -> cache_entry o s = Some e -> cache_entry o s' = Some e.
Proof.
  intros G. destruct o as [i|i|i|i|i]; simpl; intros H;
    apply fmap_Some in H as (c & Hc & ->).
  - by rewrite (grows_memories _ _ G _ _ Hc).
  - by rewrite (grows_tables _ _ G _ _ Hc).
  - by rewrite (grows_sigindices _ _ G _ _ Hc).
  - by rewrite (grows_globals _ _ G _ _ Hc).
  - by rewrite (grows_imported_functions _ _ G _ _ Hc).
Qed.

Ltac cached_after H Hc :=
  injection H; intros; subst;
  unfold set_builder, set_memories, set_tables, set_sigindices, set_globals,
    set_imported_functions;
  cbn [cached_memories cached_tables cached_sigindices cached_globals
       cached_imported_functions];
  rewrite ?lookup_insert_eq, ?Hc; eexists; reflexivity.

Lemma run_op_cached info o s r s1 :
  wf info s -> run_op intrinsics info o s = Some (r, s1) ->
  exists e, cache_entry o s1 = Some e.
Proof.
  intros Hwf H0. destruct o as [i|i|i|i|i]; simpl in H0;
    apply bind_Some in H0 as (x & s0 & H & Hr); unfold mret, M_ret in Hr;
    repeat case_match; simplify_eq; simpl.
  - destruct (memory_call info i s _ _ Hwf H)
      as [(p1 & p2 & _ & Hc & _)|[_ Hc]]; rewrite Hc; eauto.
  - destruct (cached_tables s !! i) as [tc|] eqn:Hc.
    + destruct (wf_tables _ _ Hwf _ _ Hc) as (T1 & T2 & _).
      rewrite (table_hit info i s tc Hc T1 T2) in H. cached_after H Hc.
    + rewrite (table_miss info i s (wf_ctx _ _ Hwf) Hc) in H. cached_after H Hc.
  - destruct (cached_sigindices s !! i) as [v|] eqn:Hc.
    + rewrite (sigindex_hit i s v Hc) in H. cached_after H Hc.
    + rewrite (sigindex_miss i s (wf_ctx _ _ Hwf) Hc) in H. cached_after H Hc.
  - destruct (cached_globals s !! i) as [g|] eqn:Hc.
    + rewrite (global_hit info i s g Hc) in H. cached_after H Hc.
    + destruct (global_desc_of info i) as [d|] eqn:Hd.
      2: { by rewrite (global_miss_invalid info i s Hc Hd) in H. }
      rewrite (global_miss info i s d (wf_ctx _ _ Hwf) Hc Hd) in H.
      destruct d as [[] []]; simpl in H; try discriminate; cached_after H Hc.
  - destruct (cached_imported_functions s !! i) as [c|] eqn:Hc.
    + rewrite (imported_func_hit i s c Hc) in H. cached_after H Hc.
    + rewrite (imported_func_miss i s (wf_ctx _ _ Hwf) Hc) in H. cached_after H Hc.
Qed.

Ltac hit_call Heq :=
  eexists _, _; split; [simpl; unfold_M; rewrite Heq; reflexivity|];
  split; [repeat split; reflexivity|];
  eexists; split; [reflexivity || (rewrite app_nil_r; reflexivity)|]; repeat constructor.

Lemma run_op_hit info o s e :
  wf info s -> cache_entry o s = Some e ->
  exists r s', run_op intrinsics info o s = Some (r, s') /\ same_caches s s' /\
    exists new, builder s' = builder s ++ new /\ Forall (fun i => is_load i = true) new.
Proof.
  intros Hwf H. destruct o as [i|i|i|i|i]; simpl in H;
    apply fmap_Some in H as (c & Hc & _).
  - pose proof (wf_memories _ _ Hwf _ _ Hc) as Hok. destruct c as [p1 p2|b bd].
    + destruct Hok as (_ & T1 & T2 & _).
      hit_call (memory_hit_dynamic info i s p1 p2 Hc T1 T2).
    + hit_call (memory_hit_static info i s b bd Hc).
  - destruct (wf_tables _ _ Hwf _ _ Hc) as (T1 & T2 & _).
    hit_call (table_hit info i s c Hc T1 T2).
  - hit_call (sigindex_hit i s c Hc).
  - hit_call (global_hit info i s c Hc).
  - hit_call (imported_func_hit i s c Hc).
Qed.

Lemma run_op_hit_result info o s e :
  wf info s -> cache_entry o s = Some e ->
  run_op intrinsics info o s =
    Some (fst (hit_result e (length (builder s))),
          set_builder (builder s ++ snd (hit_result e (length (builder s)))) s).
Proof.
  intros Hwf H. destruct o as [i|i|i|i|i]; simpl in H;
    apply fmap_Some in H as (c & Hc & ->); simpl; unfold_M.
  - pose proof (wf_memories _ _ Hwf _ _ Hc) as Hok. destruct c as [p1 p2|b bd].
    + destruct Hok as (_ & T1 & T2 & _).
      rewrite (memory_hit_dynamic info i s p1 p2 Hc T1 T2). reflexivity.
    + rewrite (memory_hit_static info i s b bd Hc), app_nil_r. by destruct s.
  - destruct (wf_tables _ _ Hwf _ _ Hc) as (T1 & T2 & _).
    rewrite (table_hit info i s c Hc T1 T2). reflexivity.
  - rewrite (sigindex_hit i s c Hc), app_nil_r. by destruct s.
  - rewrite (global_hit info i s c Hc), app_nil_r. by destruct s.
  - rewrite (imported_func_hit i s c Hc), app_nil_r. by destruct s.
Qed.

(** C4.  Once an accessor call ([memory], [table], [dynamic_sigindex],
    [global_cache] or [imported_func]) with some index has succeeded, its
    cache entry for that index is present and stays the same for the rest
    of the function compilation, whatever calls follow.  A later call of
    the same accessor with the same index succeeds, reads that very entry
    (a cache hit), inserts nothing into any cache, and emits no access-path
    code: at most the loads through cached field pointers.  What it returns
    is given by that entry ([hit_result]): the cached values themselves
    for a fixed memory, a signature index, a global and an imported
    function, the results of two loads through the cached field pointers
    for a moving memory and a table. *)
Theorem accessor_memoized (info : ModuleInfo) (o : Op) (s s1 s2 : CtxState)
    (r1 : OpResult) :
  reachable intrinsics info s ->
  run_op intrinsics info o s = Some (r1, s1) ->
  steps intrinsics info s1 s2 ->
  exists e r2 s3,
    cache_entry o s1 = Some e /\ cache_entry o s2 = Some e /\
    run_op intrinsics info o s2 = Some (r2, s3) /\
    same_caches s2 s3 /\
    (exists new, builder s3 = builder s2 ++ new /\ Forall (fun i => is_load i = true) new) /\
    r2 = fst (hit_result e (length (builder s2))) /\
    builder s3 = builder s2 ++ snd (hit_result e (length (builder s2))).
Proof.
  intros Hr H1 Hs.
  pose proof (reachable_wf _ _ Hr) as Hwf.
  destruct (run_op_cached info o s r1 s1 Hwf H1) as [e He].
  assert (Hr2 : reachable intrinsics info s2)
    by (eapply steps_reachable; [eapply reach_step; eauto | exact Hs]).
  pose proof (grows_cache_entry o s1 s2 e (steps_grows _ _ _ Hs) He) as He2.
  destruct (run_op_hit info o s2 e (reachable_wf _ _ Hr2) He2)
    as (r2 & s3 & H2 & Hsame & Hnew).
  pose proof (run_op_hit_result info o s2 e (reachable_wf _ _ Hr2) He2) as E.
  rewrite H2 in E. injection E as -> ->.
  eexists e, _, _. split; [exact He|]. split; [exact He2|]. split; [exact H2|].
  split; [exact Hsame|]. split; [exact Hnew|]. split; reflexivity.
Qed.

Lemma accessor_memoized_witness :
  exists r1 s1,
    reachable intrinsics example_info example_state /\
    run_op intrinsics example_info (OpMemory 1) example_state = Some (r1, s1) /\
    steps intrinsics example_info s1 s1 /\
    exists e r2 s3,
      cache_entry (OpMemory 1) s1 = Some e /\ cache_entry (OpMemory 1) s1 = Some e /\
      run_op intrinsics example_info (OpMemory 1) s1 = Some (r2, s3) /\
      same_caches s1 s3 /\
      (exists new, builder s3 = builder s1 ++ new /\ Forall (fun i => is_load i = true) new) /\
      r2 = fst (hit_result e (length (builder s1))) /\
      builder s3 = builder s1 ++ snd (hit_result e (length (builder s1))).
Proof.
  eexists _, _.
  assert (Hr : reachable intrinsics example_info example_state)
    by (apply (reach_init intrinsics example_info [TPtr TCtx] []); reflexivity).
  assert (H1 : run_op intrinsics example_info (OpMemory 1) example_state = Some (_, _))
    by (vm_compute; reflexivity).
  split; [exact Hr|]. split; [exact H1|]. split; [apply steps_refl|].
  exact (accessor_memoized example_info (OpMemory 1) example_state _ _ _ Hr H1
           (steps_refl _ _ _)).
Defined.

(** ** C5: tables always cache the field pointers *)

(** C5.  [table(index)] keeps in its cache only the two pointers to the
    base and the bound fields of the table descriptor (results of a struct
    GEP, not of a load), whatever the memories are; every call, hit or
    miss, ends with two fresh loads through these cached pointers and
    returns their results; and when it resolves the index (miss) the only
    context field it addresses is field 1 for a local and field 4 for an
    imported table (zero-based; 2 and 5 one-based). *)
Theorem table_double_indirection (info : ModuleInfo) (i : nat) (s s1 : CtxState)
    (r : value * value) :
  reachable intrinsics info s ->
  table intrinsics info i s = Some (r, s1) ->
  exists tc,
    cached_tables s1 !! i = Some tc /\
    field_ptr (builder s1) (t_ptr_to_base_ptr tc) 0 /\
    field_ptr (builder s1) (t_ptr_to_bounds tc) 1 /\
    (exists pre, builder s1 = pre ++ [ILoad (t_ptr_to_base_ptr tc); ILoad (t_ptr_to_bounds tc)] /\
       r = (VInst (length pre) (TPtr (TInt 8)), VInst (length pre + 1) (TInt 64))) /\
    (cached_tables s !! i = None ->
     exists new, builder s1 = builder s ++ new /\
       forall k, reads_ctx_field (ctx_ptr_value s) new k <->
         k = if is_local (local_or_import (imported_tables info) i) then 1 else 4).
Proof.
  intros Hr H. pose proof (reachable_wf _ _ Hr) as Hwf.
  pose proof (reachable_ctx _ _ Hr) as Hctx.
  assert (Hr1 : reachable intrinsics info s1).
  { destruct r as [a b].
    apply (reach_step intrinsics info s (OpTable i) (RPair a b)); [exact Hr|].
    simpl. unfold_M. rewrite H. reflexivity. }
  pose proof (reachable_wf _ _ Hr1) as Hwf1.
  destruct (cached_tables s !! i) as [tc|] eqn:Hc.
  - destruct (wf_tables _ _ Hwf _ _ Hc) as (T1 & T2 & _).
    rewrite (table_hit info i s tc Hc T1 T2) in H. injection H as <- <-.
    destruct (wf_tables _ _ Hwf1 i tc Hc) as (_ & _ & F1 & F2).
    exists tc. split; [exact Hc|]. split; [exact F1|]. split; [exact F2|].
    split; [exists (builder s); split; reflexivity|]. discriminate.
  - rewrite (table_miss info i s (wf_ctx _ _ Hwf) Hc) in H. injection H as <- <-.
    eexists. split; [cbn; apply lookup_insert_eq|].
    destruct (wf_tables _ _ Hwf1 i _ (lookup_insert_eq _ _ _)) as (_ & _ & F1 & F2).
    split; [exact F1|]. split; [exact F2|]. split.
    + exists (builder s ++ descriptor_code (ctx_ptr_value s)
                (if is_local (local_or_import (imported_tables info) i) then 1 else 4)
                (match local_or_import (imported_tables info) i with
                 | Local l | Import l => l end)
                (length (builder s)) local_table_ty).
      simpl. rewrite <- app_assoc. split; [reflexivity|].
      rewrite length_app. simpl. rewrite <- Nat.add_assoc. reflexivity.
    + intros _. eexists. split; [reflexivity|].
      intros k. simpl. solve_reads Hctx.
Qed.

Lemma table_double_indirection_witness :
  exists r s1,
    reachable intrinsics example_info example_state /\
    table intrinsics example_info 0 example_state = Some (r, s1) /\
    exists tc,
      cached_tables s1 !! 0 = Some tc /\
      field_ptr (builder s1) (t_ptr_to_base_ptr tc) 0 /\
      field_ptr (builder s1) (t_ptr_to_bounds tc) 1 /\
      (exists pre, builder s1 = pre ++ [ILoad (t_ptr_to_base_ptr tc); ILoad (t_ptr_to_bounds tc)] /\
         r = (VInst (length pre) (TPtr (TInt 8)), VInst (length pre + 1) (TInt 64))) /\
      (cached_tables example_state !! 0 = None ->
       exists new, builder s1 = builder example_state ++ new /\
         forall k, reads_ctx_field (ctx_ptr_value example_state) new k <->
           k = if is_local (local_or_import (imported_tables example_info) 0) then 1 else 4).
Proof.
  eexists _, _.
  assert (Hr : reachable intrinsics example_info example_state)
    by (apply (reach_init intrinsics example_info [TPtr TCtx] []); reflexivity).
  assert (H : table intrinsics example_info 0 example_state = Some (_, _))
    by (vm_compute; reflexivity).
  split; [exact Hr|]. split; [exact H|].
  exact (table_double_indirection example_info 0 example_state _ _ Hr H).
Defined.

(** ** C6: the manifest of [declare] *)

(** C6 (counterexample).  On an empty compilation unit [declare] registers
    24 numeric-primitive symbols, not 22: 3 integer operations
    ([ctlz], [cttz], [ctpop]) and 9 float operations, each at 2 widths. *)
Theorem declare_numeric_count_is_24 :
  count_kind KNumeric (registered_names []) = 24 /\
  count_kind KNumeric (registered_names []) <> 22.
Proof. vm_compute. split; [reflexivity | discriminate]. Qed.

(** C6 (amended).  A single [declare] on an empty compilation unit
    registers 38 distinct function symbols: exactly the 12 runtime memory
    entry points of the [{grow, size} x {dynamic, static, shared} x
    {local, import}] cross product, exactly the 2 control symbols
    [llvm.expect.i1] and [llvm.trap], exactly 24 numeric primitives, and
    nothing else.  The 24 are [ctlz], [cttz] and [ctpop] at widths [i32]
    and [i64], and [sqrt], [minnum], [maxnum], [ceil], [floor], [trunc],
    [nearbyint], [fabs] and [copysign] at widths [f32] and [f64]. *)
Theorem declare_manifest :
  NoDup (registered_names []) /\
  length (registered_names []) = 38 /\
  filter (fun n => kind_eqb (symbol_kind n) KMemory) (registered_names []) = memory_entry_names /\
  filter (fun n => kind_eqb (symbol_kind n) KControl) (registered_names []) =
    ["llvm.expect.i1"; "llvm.trap"]%string /\
  count_kind KNumeric (registered_names []) = 24 /\
  filter (fun n => kind_eqb (symbol_kind n) KNumeric) (registered_names []) =
    numeric_entry_names /\
  count_kind KOther (registered_names []) = 0.
Proof.
  split; [apply (bool_decide_unpack _); vm_compute; reflexivity|].
  vm_compute. repeat split.
Qed.

(** ** C7: the naming convention *)

(** C7 (counterexample).  [llvm.trap] is registered by [declare] and has
    only two components: it has neither the [llvm.<op>.<width>] nor the
    [vm.<resource>.<operation>.<discipline>.<locality>] form. *)
Theorem declare_trap_name_has_no_width :
  In "llvm.trap"%string (registered_names []) /\
  name_parts "llvm.trap" = ["llvm"; "trap"]%string /\
  numeric_form "llvm.trap" = false /\ runtime_form "llvm.trap" = false.
Proof. vm_compute. split; [tauto|]. repeat split. Qed.

(** C7 (amended).  Every name [declare] registers, except [llvm.trap], has
    one of the two forms: the numeric primitives and the hint
    [llvm.expect.i1] are [llvm.<op>.<width>] (e.g. [llvm.ctlz.i32],
    [llvm.sqrt.f64]); the runtime entry points are
    [vm.memory.<operation>.<discipline>.<locality>], and they are exactly
    the 12 names of the [{grow, size} x {dynamic, static, shared} x
    {local, import}] cross product. *)
Theorem declare_naming_convention :
  Forall (fun n => n = "llvm.trap"%string \/ numeric_form n = true \/ runtime_form n = true)
    (registered_names []) /\
  Forall (fun n => numeric_form n = true)
    (filter (fun n => kind_eqb (symbol_kind n) KNumeric) (registered_names [])) /\
  In "llvm.ctlz.i32"%string (registered_names []) /\
  In "llvm.sqrt.f64"%string (registered_names []) /\
  filter runtime_form (registered_names []) = memory_entry_names /\
  length memory_entry_names = 12 /\ NoDup memory_entry_names.
Proof.
  split.
  { assert (Hb : forallb (fun n => String.eqb n "llvm.trap" || numeric_form n || runtime_form n)
                   (registered_names []) = true) by (vm_compute; reflexivity).
    apply Forall_forall. intros n Hn. apply list_elem_of_In in Hn.
    eapply forallb_forall in Hb; [|exact Hn].
    apply orb_true_iff in Hb as [Hb|Hb]; [apply orb_true_iff in Hb as [Hb|Hb]|]; auto.
    left. by apply String.eqb_eq. }
  split; [vm_compute; repeat constructor|].
  split; [vm_compute; tauto|]. split; [vm_compute; tauto|].
  split; [vm_compute; reflexivity|]. split; [reflexivity|].
  apply (bool_decide_unpack _); vm_compute; reflexivity.
Qed.

(** ** C8: the signatures of the memory entry points *)

(** C8.  Each of the 12 runtime memory entry points registered by
    [declare] has type [i32 (ctx*, i32, i32)] when it is a [grow] entry
    (context pointer, memory index, delta in pages) and [i32 (ctx*, i32)]
    when it is a [size] entry (context pointer, memory index); the same
    holds of the 12 handles of the [Intrinsics] table. *)
Theorem memory_entry_signatures :
  length (filter (fun f => runtime_form (fn_name f)) (snd (declare []))) = 12 /\
  Forall (fun f => runtime_form (fn_name f) = true ->
            fn_ty f = if String.eqb (runtime_op (fn_name f)) "grow"
                      then TFun (TInt 32) [ctx_ptr_ty intrinsics; TInt 32; TInt 32]
                      else TFun (TInt 32) [ctx_ptr_ty intrinsics; TInt 32])
    (snd (declare [])) /\
  Forall (fun f => fn_ty f = TFun (TInt 32) [ctx_ptr_ty intrinsics; TInt 32; TInt 32])
    [i_memory_grow_dynamic_local intrinsics; i_memory_grow_static_local intrinsics;
     i_memory_grow_shared_local intrinsics; i_memory_grow_dynamic_import intrinsics;
     i_memory_grow_static_import intrinsics; i_memory_grow_shared_import intrinsics] /\
  Forall (fun f => fn_ty f = TFun (TInt 32) [ctx_ptr_ty intrinsics; TInt 32])
    [i_memory_size_dynamic_local intrinsics; i_memory_size_static_local intrinsics;
     i_memory_size_shared_local intrinsics; i_memory_size_dynamic_import intrinsics;
     i_memory_size_static_import intrinsics; i_memory_size_shared_import intrinsics].
Proof.
  split; [vm_compute; reflexivity|].
  split; [vm_compute; repeat constructor; intros; first [discriminate | reflexivity]|].
  split; vm_compute; repeat constructor.
Qed.

(** ** C10: the precondition of [ctx] *)

(** C10.  [ctx] takes parameter 0 of the function and converts it to a
    pointer: it succeeds exactly when the function has a first parameter
    of pointer type, and then the context pointer is that parameter; with
    no parameter, or a first parameter of another type, it panics. *)
Theorem ctx_requires_pointer_param (params : list llty) (code : list instr) :
  ((exists s, ctx params code = Some s) <-> exists t, params !! 0 = Some (TPtr t)) /\
  (forall t s, params !! 0 = Some (TPtr t) -> ctx params code = Some s ->
     ctx_ptr_value s = VParam 0 (TPtr t)) /\
  (params = [] -> ctx params code = None) /\
  (forall t, params !! 0 = Some t -> (forall t', t <> TPtr t') -> ctx params code = None).
Proof.
  unfold ctx. split; [|split; [|split]].
  - destruct (params !! 0) as [[]|]; split; intros [x Hx]; try discriminate; eauto.
  - intros t s -> [= <-]. reflexivity.
  - intros ->. reflexivity.
  - intros t -> Ht. destruct t; try reflexivity. exfalso; eapply Ht; reflexivity.
Qed.

(** ** Access paths of the cached values *)

Lemma defined_by_app code new v i :
  defined_by code v i -> defined_by (code ++ new) v i.
Proof.
  intros (n & t & -> & H). exists n, t. split; [done|]. by apply lookup_app_l_Some.
Qed.

#[local] Hint Resolve defined_by_app : emit_db.

Lemma array_elem_app code new ctxp f idx e :
  array_elem code ctxp f idx e -> array_elem (code ++ new) ctxp f idx e.
Proof.
  intros (pp & a & ep & H1 & H2 & H3 & H4). exists pp, a, ep. eauto 10 with emit_db.
Qed.

#[local] Hint Resolve array_elem_app : emit_db.

Lemma sigindex_path_app code new ctxp i v :
  sigindex_path code ctxp i v -> sigindex_path (code ++ new) ctxp i v.
Proof. intros [T H]. split; eauto with emit_db. Qed.

Lemma imported_func_path_app code new ctxp i c :
  imported_func_path code ctxp i c -> imported_func_path (code ++ new) ctxp i c.
Proof.
  intros (T1 & T2 & d & p1 & p2 & H1 & H2 & H3 & H4 & H5).
  split; [done|]. split; [done|]. exists d, p1, p2. eauto 10 with emit_db.
Qed.

Lemma global_path_app info code new ctxp i g :
  global_path info code ctxp i g -> global_path info (code ++ new) ctxp i g.
Proof.
  intros (d & gp & ip & Hd & H1 & H2 & H3).
  exists d, gp, ip. split; [done|]. split; [eauto with emit_db|]. split; [eauto with emit_db|].
  destruct g; destruct H3 as [Hm H3]; split; try done; [eauto with emit_db|].
  destruct H3 as (tp & H4 & H5). exists tp. split; eauto with emit_db.
Qed.

Lemma paths_ok_change info s s' new :
  paths_ok info s -> builder s' = builder s ++ new -> ctx_ptr_value s' = ctx_ptr_value s ->
  (forall i v, cached_sigindices s' !! i = Some v ->
     cached_sigindices s !! i = Some v \/ sigindex_path (builder s') (ctx_ptr_value s') i v) ->
  (forall i c, cached_imported_functions s' !! i = Some c ->
     cached_imported_functions s !! i = Some c \/
     imported_func_path (builder s') (ctx_ptr_value s') i c) ->
  (forall i g, cached_globals s' !! i = Some g ->
     cached_globals s !! i = Some g \/ global_path info (builder s') (ctx_ptr_value s') i g) ->
  paths_ok info s'.
Proof.
  intros [P1 P2 P3] Hb Hc H1 H2 H3. split.
  - intros i v H. destruct (H1 i v H) as [E|E]; [|exact E].
    rewrite Hb, Hc. apply sigindex_path_app. exact (P1 _ _ E).
  - intros i c H. destruct (H2 i c H) as [E|E]; [|exact E].
    rewrite Hb, Hc. apply imported_func_path_app. exact (P2 _ _ E).
  - intros i g H. destruct (H3 i g H) as [E|E]; [|exact E].
    rewrite Hb, Hc. apply global_path_app. exact (P3 _ _ E).
Qed.

Lemma lookup_app_len {A} (l m : list A) : (l ++ m) !! length l = m !! 0.
Proof. rewrite <- (Nat.add_0_r (length l)). apply lookup_app_plus. Qed.

(** The access paths, their hypotheses ordered from the value back to the
    context pointer. *)
Lemma array_elem_intro code ctxp f idx e ep a pp :
  defined_by code e (ILoad ep) ->
  defined_by code ep (IInBoundsGep a [const_int (TInt 32) idx]) ->
  defined_by code a (ILoad pp) -> defined_by code pp (IStructGep ctxp f) ->
  array_elem code ctxp f idx e.
Proof. intros. exists pp, a, ep. auto. Qed.

Lemma imported_func_path_intro code ctxp i c p1 p2 d :
  type_of (func_ptr c) = TPtr (TInt 8) -> type_of (ctx_ptr c) = TPtr TCtx ->
  defined_by code (func_ptr c) (ILoad p1) -> defined_by code (ctx_ptr c) (ILoad p2) ->
  defined_by code p1 (IStructGep d 0) -> defined_by code p2 (IStructGep d 1) ->
  array_elem code ctxp 6 i d -> imported_func_path code ctxp i c.
Proof. intros. split; [done|]. split; [done|]. exists d, p1, p2. auto. Qed.

Lemma global_path_intro info code ctxp i g d ip gp :
  global_desc_of info i = Some d ->
  match g with
  | GMut p =>
      mutable d = true /\
      defined_by code p (IIntToPtr ip (type_to_llvm_ptr intrinsics (ty d)))
  | GConst v =>
      mutable d = false /\
      exists tp, defined_by code v (ILoad tp) /\
        defined_by code tp (IIntToPtr ip (type_to_llvm_ptr intrinsics (ty d)))
  end ->
  defined_by code ip (IPtrToInt gp (TInt 64)) ->
  array_elem code ctxp
    (if is_local (local_or_import (length (imported_globals info)) i) then 2 else 5)
    (match local_or_import (length (imported_globals info)) i with
     | Local l | Import l => l end) gp ->
  global_path info code ctxp i g.
Proof. intros. exists d, gp, ip. auto. Qed.

(** A chain of [defined_by] facts over freshly emitted code. *)
Ltac path_at :=
  match goal with
  | |- defined_by _ _ _ =>
      eexists _, _; split; [reflexivity|];
      first [rewrite lookup_app_plus | rewrite lookup_app_len]; simpl; reflexivity
  end.

Ltac proj_state :=
  unfold set_builder, set_memories, set_tables, set_sigindices, set_globals,
    set_imported_functions;
  cbn [builder ctx_ptr_value cached_memories cached_tables cached_sigindices
       cached_globals cached_imported_functions].

(** The unchanged caches of a step. *)
Ltac keep_cache := intros ? ? ?; left; assumption.

(** A cache that gained the entry at [i]. *)
Ltac new_entry := intros ? ? Hk; apply lookup_insert_inv in Hk as [[-> ->]|Hk]; [right|left; exact Hk].

Lemma run_op_paths info o s r s' :
  wf info s -> paths_ok info s -> run_op intrinsics info o s = Some (r, s') -> paths_ok info s'.
Proof.
  intros Hwf P H0. pose proof (wf_ctx _ _ Hwf) as Hctx.
  destruct o as [i|i|i|i|i]; simpl in H0;
    apply bind_Some in H0 as (x & s0 & H & Hr); unfold mret, M_ret in Hr;
    repeat case_match; simplify_eq.
  - destruct (cached_memories s !! i) as [c|] eqn:Hc.
    + pose proof (wf_memories _ _ Hwf _ _ Hc) as Hok. destruct c as [p1 p2|b bd].
      * destruct Hok as (_ & T1 & T2 & _).
        rewrite (memory_hit_dynamic info i s p1 p2 Hc T1 T2) in H.
        injection H; intros; subst.
        eapply (paths_ok_change info s); [exact P | reflexivity | reflexivity | keep_cache ..].
      * rewrite (memory_hit_static info i s b bd Hc) in H. injection H; intros; subst. exact P.
    + destruct (mem_type_of info i) as [mt|] eqn:Hmt.
      2: { by rewrite (memory_miss_invalid info i s Hc Hmt) in H. }
      rewrite (memory_miss info i s mt Hctx Hc Hmt) in H. injection H; intros; subst.
      eapply (paths_ok_change info s); [exact P | proj_state; reflexivity | reflexivity | keep_cache ..].
  - destruct (cached_tables s !! i) as [tc|] eqn:Hc.
    + destruct (wf_tables _ _ Hwf _ _ Hc) as (T1 & T2 & _).
      rewrite (table_hit info i s tc Hc T1 T2) in H. injection H; intros; subst.
      eapply (paths_ok_change info s); [exact P | reflexivity | reflexivity | keep_cache ..].
    + rewrite (table_miss info i s Hctx Hc) in H. injection H; intros; subst.
      eapply (paths_ok_change info s); [exact P | proj_state; reflexivity | reflexivity | keep_cache ..].
  - destruct (cached_sigindices s !! i) as [v|] eqn:Hc.
    + rewrite (sigindex_hit i s v Hc) in H. injection H; intros; subst. exact P.
    + rewrite (sigindex_miss i s Hctx Hc) in H. injection H; intros; subst.
      eapply (paths_ok_change info s); [exact P | proj_state; reflexivity | reflexivity
        | proj_state; new_entry | keep_cache ..].
      split; [reflexivity|]. eapply array_elem_intro; path_at.
  - destruct (cached_globals s !! i) as [g|] eqn:Hc.
    + rewrite (global_hit info i s g Hc) in H. injection H; intros; subst. exact P.
    + destruct (global_desc_of info i) as [d|] eqn:Hd.
      2: { by rewrite (global_miss_invalid info i s Hc Hd) in H. }
      rewrite (global_miss info i s d Hctx Hc Hd) in H.
      destruct d as [[] []]; simpl in H; try discriminate; injection H; intros; subst;
        rewrite <- ?app_assoc;
        (eapply (paths_ok_change info s); [exact P | proj_state; reflexivity
          | reflexivity | keep_cache | keep_cache | proj_state; new_entry]);
        (eapply global_path_intro; [exact Hd
          | simpl; split; [reflexivity | first [path_at | eexists; split; path_at]]
          | path_at | eapply array_elem_intro; path_at]).
  - destruct (cached_imported_functions s !! i) as [c|] eqn:Hc.
    + rewrite (imported_func_hit i s c Hc) in H. injection H; intros; subst. exact P.
    + rewrite (imported_func_miss i s Hctx Hc) in H. injection H; intros; subst.
      eapply (paths_ok_change info s); [exact P | proj_state; reflexivity | reflexivity
        | keep_cache | proj_state; new_entry | keep_cache].
      eapply imported_func_path_intro; [reflexivity | reflexivity | path_at .. |].
      eapply array_elem_intro; path_at.
Qed.

Lemma reachable_paths info s : reachable intrinsics info s -> paths_ok info s.
Proof.
  induction 1 as [params code s Hp Hctx|s o r s' Hr IH Hop].
  - unfold ctx in Hctx. rewrite Hp in Hctx. simpl in Hctx. injection Hctx as <-.
    split; simpl; intros ? ?; rewrite lookup_empty; discriminate.
  - eapply run_op_paths; [apply (reachable_wf _ _ Hr) | exact IH | exact Hop].
Qed.

(** ** The code one accessor call emits *)

Ltac scoped_list Hctx :=
  let k := fresh "k" in let i := fresh "i" in let Hk := fresh "Hk" in
  intros k i Hk; unfold descriptor_code, base_bound_loads, global_code in Hk;
  simpl in Hk;
  repeat (destruct k as [|k];
          [injection Hk as <-; simpl; rewrite ?Hctx, ?Forall_cons, ?Forall_nil; simpl;
           repeat split; lia | simpl in Hk]);
  discriminate.

Ltac no_calls :=
  unfold descriptor_code, base_bound_loads, global_code; simpl; repeat constructor.

Ltac new_code Hctx :=
  eexists; split; [proj_state; rewrite <- ?app_assoc; reflexivity|];
  split; [scoped_list Hctx | no_calls].

Ltac no_code :=
  exists []; split; [by rewrite app_nil_r|];
  split; [intros ? ? Hk; rewrite lookup_nil in Hk; discriminate | constructor].

Lemma field_ptr_lt code p k :
  field_ptr code p k -> exists m t, p = VInst m t /\ m < length code.
Proof.
  intros (m & t & q & -> & Hm). exists m, t. split; [done|]. by eapply lookup_lt_Some.
Qed.

Lemma run_op_new_code info o s r s' :
  wf info s -> ctx_ptr_value s = VParam 0 (TPtr TCtx) ->
  run_op intrinsics info o s = Some (r, s') ->
  exists new, builder s' = builder s ++ new /\
    well_scoped_from (length (builder s)) new /\ Forall (fun i => is_call i = false) new.
Proof.
  intros Hwf Hctx H0. pose proof (wf_ctx _ _ Hwf) as Hct.
  destruct o as [i|i|i|i|i]; simpl in H0;
    apply bind_Some in H0 as (x & s0 & H & Hr); unfold mret, M_ret in Hr;
    repeat case_match; simplify_eq.
  - destruct (cached_memories s !! i) as [c|] eqn:Hc.
    + pose proof (wf_memories _ _ Hwf _ _ Hc) as Hok. destruct c as [p1 p2|b bd].
      * destruct Hok as (_ & T1 & T2 & F1 & F2).
        rewrite (memory_hit_dynamic info i s p1 p2 Hc T1 T2) in H.
        injection H; intros; subst.
        destruct (field_ptr_lt _ _ _ F1) as (m1 & t1 & -> & L1).
        destruct (field_ptr_lt _ _ _ F2) as (m2 & t2 & -> & L2).
        new_code Hctx.
      * rewrite (memory_hit_static info i s b bd Hc) in H. injection H; intros; subst.
        no_code.
    + destruct (mem_type_of info i) as [mt|] eqn:Hmt.
      2: { by rewrite (memory_miss_invalid info i s Hc Hmt) in H. }
      rewrite (memory_miss info i s mt Hct Hc Hmt) in H. injection H; intros; subst.
      new_code Hctx.
  - destruct (cached_tables s !! i) as [tc|] eqn:Hc.
    + destruct (wf_tables _ _ Hwf _ _ Hc) as (T1 & T2 & F1 & F2).
      rewrite (table_hit info i s tc Hc T1 T2) in H. injection H; intros; subst.
      destruct (field_ptr_lt _ _ _ F1) as (m1 & t1 & E1 & L1).
      destruct (field_ptr_lt _ _ _ F2) as (m2 & t2 & E2 & L2).
      rewrite E1, E2. new_code Hctx.
    + rewrite (table_miss info i s Hct Hc) in H. injection H; intros; subst.
      new_code Hctx.
  - destruct (cached_sigindices s !! i) as [v|] eqn:Hc.
    + rewrite (sigindex_hit i s v Hc) in H. injection H; intros; subst. no_code.
    + rewrite (sigindex_miss i s Hct Hc) in H. injection H; intros; subst.
      new_code Hctx.
  - destruct (cached_globals s !! i) as [g|] eqn:Hc.
    + rewrite (global_hit info i s g Hc) in H. injection H; intros; subst. no_code.
    + destruct (global_desc_of info i) as [d|] eqn:Hd.
      2: { by rewrite (global_miss_invalid info i s Hc Hd) in H. }
      rewrite (global_miss info i s d Hct Hc Hd) in H.
      destruct d as [[] []]; simpl in H; try discriminate; injection H; intros; subst;
        new_code Hctx.
  - destruct (cached_imported_functions s !! i) as [c|] eqn:Hc.
    + rewrite (imported_func_hit i s c Hc) in H. injection H; intros; subst. no_code.
    + rewrite (imported_func_miss i s Hct Hc) in H. injection H; intros; subst.
      new_code Hctx.
Qed.

Lemma well_scoped_from_app b n1 n2 :
  well_scoped_from b n1 -> well_scoped_from (b + length n1) n2 ->
  well_scoped_from b (n1 ++ n2).
Proof.
  intros H1 H2 k i Hk. apply lookup_app_Some in Hk as [Hk|[Hlen Hk]]; [by apply H1|].
  specialize (H2 _ _ Hk). replace (b + k) with (b + length n1 + (k - length n1)) by lia.
  exact H2.
Qed.

Lemma steps_new_code info s s' :
  reachable intrinsics info s -> steps intrinsics info s s' ->
  exists new, builder s' = builder s ++ new /\
    well_scoped_from (length (builder s)) new /\ Forall (fun i => is_call i = false) new.
Proof.
  intros Hr Hs. induction Hs as [s|s o r s1 s2 Hop Hs IH].
  - no_code.
  - destruct (run_op_new_code info o s r s1 (reachable_wf _ _ Hr) (reachable_ctx _ _ Hr) Hop)
      as (n1 & E1 & W1 & C1).
    destruct IH as (n2 & E2 & W2 & C2); [eapply reach_step; eauto|].
    exists (n1 ++ n2). rewrite E2, E1, app_assoc. split; [reflexivity|]. split.
    + apply well_scoped_from_app; [exact W1|]. rewrite <- length_app, <- E1. exact W2.
    + by apply Forall_app.
Qed.

Lemma run_op_sigindex info i s v s1 :
  dynamic_sigindex intrinsics i s = Some (v, s1) ->
  run_op intrinsics info (OpSigindex i) s = Some (RValue v, s1).
Proof. intros H. simpl. unfold_M. rewrite H. reflexivity. Qed.

Lemma run_op_imported_func info i s a b s1 :
  imported_func intrinsics i s = Some ((a, b), s1) ->
  run_op intrinsics info (OpImportedFunc i) s = Some (RPair a b, s1).
Proof. intros H. simpl. unfold_M. rewrite H. reflexivity. Qed.

Lemma run_op_global info i s g s1 :
  global_cache intrinsics info i s = Some (g, s1) ->
  run_op intrinsics info (OpGlobal i) s = Some (RGlobal g, s1).
Proof. intros H. simpl. unfold_M. rewrite H. reflexivity. Qed.

Lemma run_op_table info i s a b s1 :
  table intrinsics info i s = Some ((a, b), s1) ->
  run_op intrinsics info (OpTable i) s = Some (RPair a b, s1).
Proof. intros H. simpl. unfold_M. rewrite H. reflexivity. Qed.

(** ** Further properties of the accessors *)

(** [memory(index)] panics exactly when the index names no memory of the
    module ([info.memories] or [info.imported_memories] has no entry). *)
Theorem memory_panics_iff_no_memory (info : ModuleInfo) (s : CtxState) (i : nat) :
  reachable intrinsics info s ->
  (memory intrinsics info i s = None <-> mem_type_of info i = None).
Proof.
  intros Hr. pose proof (reachable_wf _ _ Hr) as Hwf.
  destruct (cached_memories s !! i) as [c|] eqn:Hc.
  - pose proof (wf_memories _ _ Hwf _ _ Hc) as Hok. destruct c as [p1 p2|b bd].
    + destruct Hok as (Hm & T1 & T2 & _).
      rewrite (memory_hit_dynamic info i s p1 p2 Hc T1 T2), Hm. split; discriminate.
    + destruct Hok as ([Hm|Hm] & _); rewrite (memory_hit_static info i s b bd Hc), Hm;
        split; discriminate.
  - destruct (mem_type_of info i) as [mt|] eqn:Hmt.
    + rewrite (memory_miss info i s mt (wf_ctx _ _ Hwf) Hc Hmt). split; discriminate.
    + rewrite (memory_miss_invalid info i s Hc Hmt). tauto.
Qed.

Lemma memory_panics_iff_no_memory_witness :
  reachable intrinsics example_info example_state /\
  (memory intrinsics example_info 2 example_state = None <-> mem_type_of example_info 2 = None) /\
  mem_type_of example_info 2 = None.
Proof.
  assert (Hr : reachable intrinsics example_info example_state)
    by (apply (reach_init intrinsics example_info [TPtr TCtx] []); reflexivity).
  split; [exact Hr|]. split; [|reflexivity].
  exact (memory_panics_iff_no_memory example_info example_state 2 Hr).
Defined.

(** [global_cache(index)] panics when the index names no global of the
    module ([info.globals] or [info.imported_globals] has no entry). *)
Theorem global_cache_no_global_panics (info : ModuleInfo) (s : CtxState) (i : nat) :
  reachable intrinsics info s ->
  global_desc_of info i = None ->
  global_cache intrinsics info i s = None.
Proof.
  intros Hr Hd. pose proof (reachable_wf _ _ Hr) as Hwf.
  destruct (cached_globals s !! i) as [g|] eqn:Hc.
  - destruct (wf_globals _ _ Hwf _ _ Hc) as (d & Hd' & _). congruence.
  - exact (global_miss_invalid info i s Hc Hd).
Qed.

Lemma global_cache_no_global_panics_witness :
  reachable intrinsics example_info example_state /\
  global_desc_of example_info 3 = None /\
  global_cache intrinsics example_info 3 example_state = None.
Proof.
  assert (Hr : reachable intrinsics example_info example_state)
    by (apply (reach_init intrinsics example_info [TPtr TCtx] []); reflexivity).
  assert (Hd : global_desc_of example_info 3 = None) by reflexivity.
  split; [exact Hr|]. split; [exact Hd|].
  exact (global_cache_no_global_panics example_info example_state 3 Hr Hd).
Defined.

(** [table], [dynamic_sigindex] and [imported_func] never panic: they do
    not check the index against the module, so they emit their access code
    for every index, including one beyond the module's tables, signatures
    or imported functions. *)
Theorem unchecked_accessors_total (info : ModuleInfo) (s : CtxState) (i : nat) :
  reachable intrinsics info s ->
  (exists r s', table intrinsics info i s = Some (r, s')) /\
  (exists v s', dynamic_sigindex intrinsics i s = Some (v, s')) /\
  (exists r s', imported_func intrinsics i s = Some (r, s')).
Proof.
  intros Hr. pose proof (reachable_wf _ _ Hr) as Hwf. pose proof (wf_ctx _ _ Hwf) as Hct.
  split; [|split].
  - destruct (cached_tables s !! i) as [tc|] eqn:Hc.
    + destruct (wf_tables _ _ Hwf _ _ Hc) as (T1 & T2 & _).
      rewrite (table_hit info i s tc Hc T1 T2). eauto.
    + rewrite (table_miss info i s Hct Hc). eauto.
  - destruct (cached_sigindices s !! i) as [v|] eqn:Hc.
    + rewrite (sigindex_hit i s v Hc). eauto.
    + rewrite (sigindex_miss i s Hct Hc). eauto.
  - destruct (cached_imported_functions s !! i) as [c|] eqn:Hc.
    + rewrite (imported_func_hit i s c Hc). eauto.
    + rewrite (imported_func_miss i s Hct Hc). eauto.
Qed.

Lemma unchecked_accessors_total_witness :
  reachable intrinsics example_info example_state /\
  (exists r s', table intrinsics example_info 5 example_state = Some (r, s')) /\
  (exists v s', dynamic_sigindex intrinsics 5 example_state = Some (v, s')) /\
  (exists r s', imported_func intrinsics 5 example_state = Some (r, s')).
Proof.
  assert (Hr : reachable intrinsics example_info example_state)
    by (apply (reach_init intrinsics example_info [TPtr TCtx] []); reflexivity).
  split; [exact Hr|].
  exact (unchecked_accessors_total example_info example_state 5 Hr).
Defined.

(** The LLVM types of what the accessors return: [memory] and [table] give
    an [i8*] base and an [i64] bound, [dynamic_sigindex] an [i32],
    [imported_func] an [i8*] function pointer and a [ctx*] context pointer,
    and [global_cache] of a mutable global a pointer of type
    [type_to_llvm_ptr] of the global's declared type. *)
Theorem accessor_result_types (info : ModuleInfo) (s : CtxState) :
  reachable intrinsics info s ->
  (forall i b bd s', memory intrinsics info i s = Some ((b, bd), s') ->
     type_of b = TPtr (TInt 8) /\ type_of bd = TInt 64) /\
  (forall i b bd s', table intrinsics info i s = Some ((b, bd), s') ->
     type_of b = TPtr (TInt 8) /\ type_of bd = TInt 64) /\
  (forall i v s', dynamic_sigindex intrinsics i s = Some (v, s') -> type_of v = TInt 32) /\
  (forall i fp cp s', imported_func intrinsics i s = Some ((fp, cp), s') ->
     type_of fp = TPtr (TInt 8) /\ type_of cp = TPtr TCtx) /\
  (forall i p s', global_cache intrinsics info i s = Some (GMut p, s') ->
     exists d, global_desc_of info i = Some d /\ mutable d = true /\
               type_of p = type_to_llvm_ptr intrinsics (ty d)).
Proof.
  intros Hr. pose proof (reachable_wf _ _ Hr) as Hwf. pose proof (wf_ctx _ _ Hwf) as Hct.
  pose proof (reachable_paths _ _ Hr) as P.
  split; [|split; [|split; [|split]]].
  - intros i b bd s' H.
    assert (Hr' : reachable intrinsics info s')
      by (eapply reach_step; [exact Hr | apply run_op_memory; exact H]).
    destruct (memory_call info i s _ _ Hwf H)
      as [(p1 & p2 & _ & _ & _ & pre & _ & E)|[_ Hc]].
    + injection E as -> ->. auto.
    + destruct (wf_memories _ _ (reachable_wf _ _ Hr') _ _ Hc) as (_ & T1 & T2 & _). auto.
  - intros i b bd s' H. destruct (cached_tables s !! i) as [tc|] eqn:Hc.
    + destruct (wf_tables _ _ Hwf _ _ Hc) as (T1 & T2 & _).
      rewrite (table_hit info i s tc Hc T1 T2) in H. injection H as <- <- _. auto.
    + rewrite (table_miss info i s Hct Hc) in H. injection H as <- <- _. auto.
  - intros i v s' H. destruct (cached_sigindices s !! i) as [v'|] eqn:Hc.
    + rewrite (sigindex_hit i s v' Hc) in H. injection H as <- _.
      exact (proj1 (paths_sigindices _ _ P _ _ Hc)).
    + rewrite (sigindex_miss i s Hct Hc) in H. injection H as <- _. reflexivity.
  - intros i fp cp s' H. destruct (cached_imported_functions s !! i) as [c|] eqn:Hc.
    + rewrite (imported_func_hit i s c Hc) in H. injection H as <- <- _.
      destruct (paths_imported_functions _ _ P _ _ Hc) as (T1 & T2 & _). auto.
    + rewrite (imported_func_miss i s Hct Hc) in H. injection H as <- <- _. auto.
  - intros i p s' H. destruct (cached_globals s !! i) as [g|] eqn:Hc.
    + rewrite (global_hit info i s g Hc) in H. injection H as -> _.
      destruct (wf_globals _ _ Hwf _ _ Hc) as (d & Hd & Hm & T). eauto.
    + destruct (global_desc_of info i) as [d|] eqn:Hd.
      2: { by rewrite (global_miss_invalid info i s Hc Hd) in H. }
      rewrite (global_miss info i s d Hct Hc Hd) in H.
      exists d. split; [reflexivity|].
      destruct d as [[] []]; simpl in H; try discriminate; injection H as <- _; auto.
Qed.

Lemma accessor_result_types_witness :
  reachable intrinsics example_info example_state /\
  (forall i b bd s', memory intrinsics example_info i example_state = Some ((b, bd), s') ->
     type_of b = TPtr (TInt 8) /\ type_of bd = TInt 64) /\
  (forall i b bd s', table intrinsics example_info i example_state = Some ((b, bd), s') ->
     type_of b = TPtr (TInt 8) /\ type_of bd = TInt 64) /\
  (forall i v s', dynamic_sigindex intrinsics i example_state = Some (v, s') ->
     type_of v = TInt 32) /\
  (forall i fp cp s', imported_func intrinsics i example_state = Some ((fp, cp), s') ->
     type_of fp = TPtr (TInt 8) /\ type_of cp = TPtr TCtx) /\
  (forall i p s', global_cache intrinsics example_info i example_state = Some (GMut p, s') ->
     exists d, global_desc_of example_info i = Some d /\ mutable d = true /\
               type_of p = type_to_llvm_ptr intrinsics (ty d)).
Proof.
  assert (Hr : reachable intrinsics example_info example_state)
    by (apply (reach_init intrinsics example_info [TPtr TCtx] []); reflexivity).
  split; [exact Hr|].
  exact (accessor_result_types example_info example_state Hr).
Defined.

(** The access path of [dynamic_sigindex(index)]: it returns an [i32]
    loaded from element [index] of the signature-index array whose pointer
    is in context field 7, and every later call in the same function
    returns that same value and emits nothing. *)
Theorem dynamic_sigindex_access_path (info : ModuleInfo) (s s1 : CtxState) (i : nat)
    (v : value) :
  reachable intrinsics info s ->
  dynamic_sigindex intrinsics i s = Some (v, s1) ->
  sigindex_path (builder s1) (ctx_ptr_value s) i v /\
  (forall s2, steps intrinsics info s1 s2 -> dynamic_sigindex intrinsics i s2 = Some (v, s2)).
Proof.
  intros Hr H. pose proof (reachable_wf _ _ Hr) as Hwf.
  pose proof (run_op_sigindex info i s v s1 H) as Hop.
  assert (Hr1 : reachable intrinsics info s1) by (eapply reach_step; eauto).
  assert (Hc1 : cached_sigindices s1 !! i = Some v).
  { destruct (cached_sigindices s !! i) as [v'|] eqn:Hc.
    - rewrite (sigindex_hit i s v' Hc) in H. injection H as <- <-. exact Hc.
    - rewrite (sigindex_miss i s (wf_ctx _ _ Hwf) Hc) in H. injection H as <- <-.
      apply lookup_insert_eq. }
  split.
  - rewrite <- (grows_ctx _ _ (run_op_grows _ _ _ _ _ Hop)).
    exact (paths_sigindices _ _ (reachable_paths _ _ Hr1) _ _ Hc1).
  - intros s2 Hs. apply sigindex_hit.
    exact (grows_sigindices _ _ (steps_grows _ _ _ Hs) _ _ Hc1).
Qed.

Lemma dynamic_sigindex_access_path_witness :
  exists v s1,
    reachable intrinsics example_info example_state /\
    dynamic_sigindex intrinsics 3 example_state = Some (v, s1) /\
    sigindex_path (builder s1) (ctx_ptr_value example_state) 3 v /\
    (forall s2, steps intrinsics example_info s1 s2 ->
       dynamic_sigindex intrinsics 3 s2 = Some (v, s2)).
Proof.
  assert (Hr : reachable intrinsics example_info example_state)
    by (apply (reach_init intrinsics example_info [TPtr TCtx] []); reflexivity).
  eexists _, _.
  refine ((fun H => conj Hr (conj H
    (dynamic_sigindex_access_path example_info example_state _ 3 _ Hr H))) _).
  vm_compute; reflexivity.
Defined.

(** The access path of [imported_func(index)]: the function pointer
    ([i8*]) and the context pointer ([ctx*]) are loaded from fields 0 and 1
    of the descriptor that is element [index] of the imported-function
    array whose pointer is in context field 6; every later call in the
    same function returns the same pair and emits nothing. *)
Theorem imported_func_access_path (info : ModuleInfo) (s s1 : CtxState) (i : nat)
    (fp cp : value) :
  reachable intrinsics info s ->
  imported_func intrinsics i s = Some ((fp, cp), s1) ->
  imported_func_path (builder s1) (ctx_ptr_value s) i (mkFuncCache fp cp) /\
  (forall s2, steps intrinsics info s1 s2 ->
     imported_func intrinsics i s2 = Some ((fp, cp), s2)).
Proof.
  intros Hr H. pose proof (reachable_wf _ _ Hr) as Hwf.
  pose proof (run_op_imported_func info i s fp cp s1 H) as Hop.
  assert (Hr1 : reachable intrinsics info s1) by (eapply reach_step; eauto).
  assert (Hc1 : cached_imported_functions s1 !! i = Some (mkFuncCache fp cp)).
  { destruct (cached_imported_functions s !! i) as [c|] eqn:Hc.
    - rewrite (imported_func_hit i s c Hc) in H. destruct c as [f c'].
      injection H as <- <- <-. exact Hc.
    - rewrite (imported_func_miss i s (wf_ctx _ _ Hwf) Hc) in H. injection H as <- <- <-.
      apply lookup_insert_eq. }
  split.
  - rewrite <- (grows_ctx _ _ (run_op_grows _ _ _ _ _ Hop)).
    exact (paths_imported_functions _ _ (reachable_paths _ _ Hr1) _ _ Hc1).
  - intros s2 Hs.
    exact (imported_func_hit i s2 _ (grows_imported_functions _ _ (steps_grows _ _ _ Hs) _ _ Hc1)).
Qed.

Lemma imported_func_access_path_witness :
  exists fp cp s1,
    reachable intrinsics example_info example_state /\
    imported_func intrinsics 2 example_state = Some ((fp, cp), s1) /\
    imported_func_path (builder s1) (ctx_ptr_value example_state) 2 (mkFuncCache fp cp) /\
    (forall s2, steps intrinsics example_info s1 s2 ->
       imported_func intrinsics 2 s2 = Some ((fp, cp), s2)).
Proof.
  assert (Hr : reachable intrinsics example_info example_state)
    by (apply (reach_init intrinsics example_info [TPtr TCtx] []); reflexivity).
  eexists _, _, _.
  refine ((fun H => conj Hr (conj H
    (imported_func_access_path example_info example_state _ 2 _ _ Hr H))) _).
  vm_compute; reflexivity.
Defined.

(** The access path of [global_cache(index)]: [index] names a global of
    the module, and its pointer is element [l] of the globals array of
    context field 2 when [index] resolves to the local global [l], of
    field 5 when it resolves to the imported global [l]; the pointer is
    cast with [ptrtoint] to [i64] and back with [inttoptr] to the pointer
    type of the global's declared type.  If the global is mutable the
    entry is [GMut] of that typed pointer, if it is immutable [GConst] of
    a load through it.  Every later call in the same function returns the
    same entry and emits nothing. *)
Theorem global_cache_access_path (info : ModuleInfo) (s s1 : CtxState) (i : nat)
    (g : GlobalCache) :
  reachable intrinsics info s ->
  global_cache intrinsics info i s = Some (g, s1) ->
  global_path info (builder s1) (ctx_ptr_value s) i g /\
  (forall s2, steps intrinsics info s1 s2 -> global_cache intrinsics info i s2 = Some (g, s2)).
Proof.
  intros Hr H. pose proof (reachable_wf _ _ Hr) as Hwf.
  pose proof (run_op_global info i s g s1 H) as Hop.
  assert (Hr1 : reachable intrinsics info s1) by (eapply reach_step; eauto).
  assert (Hc1 : cached_globals s1 !! i = Some g).
  { destruct (cached_globals s !! i) as [g'|] eqn:Hc.
    - rewrite (global_hit info i s g' Hc) in H. injection H as <- <-. exact Hc.
    - destruct (global_desc_of info i) as [d|] eqn:Hd.
      2: { by rewrite (global_miss_invalid info i s Hc Hd) in H. }
      rewrite (global_miss info i s d (wf_ctx _ _ Hwf) Hc Hd) in H.
      destruct d as [[] []]; simpl in H; try discriminate; injection H as <- <-;
        apply lookup_insert_eq. }
  split.
  - rewrite <- (grows_ctx _ _ (run_op_grows _ _ _ _ _ Hop)).
    exact (paths_globals _ _ (reachable_paths _ _ Hr1) _ _ Hc1).
  - intros s2 Hs. apply global_hit.
    exact (grows_globals _ _ (steps_grows _ _ _ Hs) _ _ Hc1).
Qed.

Lemma global_cache_access_path_witness :
  exists g s1,
    reachable intrinsics example_info example_state /\
    global_cache intrinsics example_info 1 example_state = Some (g, s1) /\
    global_path example_info (builder s1) (ctx_ptr_value example_state) 1 g /\
    (forall s2, steps intrinsics example_info s1 s2 ->
       global_cache intrinsics example_info 1 s2 = Some (g, s2)).
Proof.
  assert (Hr : reachable intrinsics example_info example_state)
    by (apply (reach_init intrinsics example_info [TPtr TCtx] []); reflexivity).
  eexists _, _.
  refine ((fun H => conj Hr (conj H
    (global_cache_access_path example_info example_state _ 1 _ Hr H))) _).
  vm_compute; reflexivity.
Defined.

(** The accessors never emit a call: whatever sequence of accessor calls
    runs, the code it appends consists of struct and array address
    computations, loads and pointer/integer casts only. *)
Theorem accessors_never_emit_calls (info : ModuleInfo) (s s' : CtxState) :
  reachable intrinsics info s -> steps intrinsics info s s' ->
  exists new, builder s' = builder s ++ new /\ Forall (fun i => is_call i = false) new.
Proof.
  intros Hr Hs. destruct (steps_new_code info s s' Hr Hs) as (new & E & _ & C). eauto.
Qed.

Lemma accessors_never_emit_calls_witness :
  exists s1,
    reachable intrinsics example_info example_state /\
    steps intrinsics example_info example_state s1 /\
    exists new, builder s1 = builder example_state ++ new /\
                Forall (fun i => is_call i = false) new.
Proof.
  assert (Hr : reachable intrinsics example_info example_state)
    by (apply (reach_init intrinsics example_info [TPtr TCtx] []); reflexivity).
  eexists.
  refine ((fun Hs => conj Hr (conj Hs
    (accessors_never_emit_calls example_info example_state _ Hr Hs))) _).
  eapply (steps_step intrinsics example_info example_state (OpGlobal 0));
      [vm_compute; reflexivity | apply steps_refl].
Defined.

(** The code the accessors append is well scoped: each instruction uses
    only results of earlier instructions, constants, and parameter 0 of
    the function (the context pointer). *)
Theorem accessor_code_well_scoped (info : ModuleInfo) (s s' : CtxState) :
  reachable intrinsics info s -> steps intrinsics info s s' ->
  exists new, builder s' = builder s ++ new /\ well_scoped_from (length (builder s)) new.
Proof.
  intros Hr Hs. destruct (steps_new_code info s s' Hr Hs) as (new & E & W & _). eauto.
Qed.

Lemma accessor_code_well_scoped_witness :
  exists s1,
    reachable intrinsics example_info example_state /\
    steps intrinsics example_info example_state s1 /\
    exists new, builder s1 = builder example_state ++ new /\
                well_scoped_from (length (builder example_state)) new.
Proof.
  assert (Hr : reachable intrinsics example_info example_state)
    by (apply (reach_init intrinsics example_info [TPtr TCtx] []); reflexivity).
  eexists.
  refine ((fun Hs => conj Hr (conj Hs
    (accessor_code_well_scoped example_info example_state _ Hr Hs))) _).
  eapply (steps_step intrinsics example_info example_state (OpMemory 1));
      [vm_compute; reflexivity|].
    eapply (steps_step intrinsics example_info _ (OpMemory 1));
      [vm_compute; reflexivity | apply steps_refl].
Defined.
